(** * Document index and TF-IDF retrieval (server/docIndex.ts)

    A shallow embedding of the document indexing and retrieval module of the
    image-analysis application, in the two revisions the repository carries:
    the revision that shells out to pdfinfo/pdftotext and chunks page by
    page (src/unnamed/part_002, module [PdfToText]) and the revision that
    reads the PDF with pdfjs-dist and chunks the whole document as one page
    (src/unnamed/part_003, module [PdfJs]).
    Tokenizer, index construction, scorer and retriever are the same code in
    both revisions and are embedded once.

    Modelling conventions.
    - A JavaScript string is a [string]: a sequence of code units, here the
      8-bit ones.  On that range [toLowerCase] followed by the replacement of
      everything outside [a-z0-9\s] coincides with ASCII case folding, and
      the class [\s] is TAB, LF, VT, FF, CR, SPACE and NBSP.
    - Array lengths, offsets and page numbers are [nat]; the two numeric
      parameters of the retriever, which a caller may pass negative, are [Z].
    - Scores are JavaScript numbers computed with [Math.log]; they are
      embedded as real numbers, [Math.log] as [ln].
    - [Map<string, number>] is [gmap string nat].
    - The Node.js host (environment variable, [path], [fs], the external PDF
      tools) is a record of functions, see [Host]. *)

From Stdlib Require Import ZArith Lia Reals Lra.
From Stdlib Require Import DecimalString DecimalNat Decimal.
From Stdlib Require String.
From Stdlib Require Import Ascii.
From stdpp Require Import gmap strings list sorting.

(** ** JavaScript string primitives *)

Module Js.

(** The character class [\s] on 8-bit code units. *)
Definition isSpace (c : ascii) : bool :=
  let n := Ascii.nat_of_ascii c in
  ((9 <=? n) && (n <=? 13)) || (n =? 32) || (n =? 160).

(** The character class [\d]. *)
Definition isDigit (c : ascii) : bool :=
  let n := Ascii.nat_of_ascii c in (48 <=? n) && (n <=? 57).

(** The character class [a-z]. *)
Definition isLower (c : ascii) : bool :=
  let n := Ascii.nat_of_ascii c in (97 <=? n) && (n <=? 122).

Definition isUpper (c : ascii) : bool :=
  let n := Ascii.nat_of_ascii c in (65 <=? n) && (n <=? 90).

Definition lowerChar (c : ascii) : ascii :=
  if isUpper c then Ascii.ascii_of_nat (Ascii.nat_of_ascii c + 32) else c.

Fixpoint mapChars (f : ascii -> ascii) (s : string) : string :=
  match s with
  | EmptyString => EmptyString
  | String c s' => String (f c) (mapChars f s')
  end.

(** [s.toLowerCase()], as far as the tokenizer can tell: the 8-bit letters
    it changes besides [A-Z] stay outside [a-z], and the tokenizer replaces
    them by a space in its next step either way. *)
Definition toLowerCase (s : string) : string := mapChars lowerChar s.

Fixpoint dropWhile (p : ascii -> bool) (s : string) : string :=
  match s with
  | EmptyString => EmptyString
  | String c s' => if p c then dropWhile p s' else s
  end.

Fixpoint takeWhile (p : ascii -> bool) (s : string) : string :=
  match s with
  | EmptyString => EmptyString
  | String c s' => if p c then String c (takeWhile p s') else EmptyString
  end.

Definition revString (s : string) : string :=
  String.string_of_list_ascii (List.rev (String.list_ascii_of_string s)).

(** [s.trim()] *)
Definition trim (s : string) : string :=
  revString (dropWhile isSpace (revString (dropWhile isSpace s))).

(** [s.replace(/\s+/g, " ")]: every maximal run of white space becomes one
    space.  [inRun] records that the previous code unit was white space. *)
Fixpoint replaceSpaceRuns (inRun : bool) (s : string) : string :=
  match s with
  | EmptyString => EmptyString
  | String c s' =>
      if isSpace c
      then if inRun then replaceSpaceRuns true s'
           else String " " (replaceSpaceRuns true s')
      else String c (replaceSpaceRuns false s')
  end.

(** [s.split(/\s+/)]: the pieces between maximal runs of white space,
    empty pieces at both ends included.  [cur] is the piece being read. *)
Fixpoint splitSpaceRuns (inRun : bool) (cur : string) (s : string) : list string :=
  match s with
  | EmptyString => [cur]
  | String c s' =>
      if isSpace c
      then if inRun then splitSpaceRuns true EmptyString s'
           else cur :: splitSpaceRuns true EmptyString s'
      else splitSpaceRuns false (cur +:+ String c EmptyString) s'
  end.

(** [s.split(",")] *)
Fixpoint splitComma (cur : string) (s : string) : list string :=
  match s with
  | EmptyString => [cur]
  | String c s' =>
      if Ascii.eqb c ","
      then cur :: splitComma EmptyString s'
      else splitComma (cur +:+ String c EmptyString) s'
  end.

(** Truthiness of a string: [Boolean(s)], [!s]. *)
Definition truthy (s : string) : bool :=
  match s with EmptyString => false | _ => true end.

(** [s.slice(from, to)] for [0 <= from <= to <= s.length]. *)
Definition slice (s : string) (from to : nat) : string :=
  String.substring from (to - from) s.

(** [String(n)] and template interpolation of a non-negative integer. *)
Definition ofNat (n : nat) : string :=
  NilEmpty.string_of_uint (Nat.to_uint n).

(** [parseInt(ds, 10)] on a non-empty string of decimal digits. *)
Definition parseInt (ds : string) : nat :=
  List.fold_left (fun acc c => 10 * acc + (Ascii.nat_of_ascii c - 48))
                 (String.list_ascii_of_string ds) 0.

(** [xs.join(sep)] *)
Fixpoint join (sep : string) (xs : list string) : string :=
  match xs with
  | [] => EmptyString
  | [x] => x
  | x :: rest => x +:+ sep +:+ join sep rest
  end.

(** [xs.slice(0, k)] on an array, for an integer [k] of either sign: a
    negative end counts from the end of the array. *)
Definition sliceTo {A} (xs : list A) (k : Z) : list A :=
  let len := Z.of_nat (length xs) in
  let final := if (k <? 0)%Z then Z.max (len + k) 0 else Z.min k len in
  take (Z.to_nat final) xs.

(** [v || d] on the result of [Map.prototype.get] with numeric values:
    [undefined] and [0] are falsy. *)
Definition orElse (v : option nat) (d : nat) : nat :=
  match v with
  | Some (S n) => S n
  | _ => d
  end.

(** The line feed written [\n] in the source. *)
Definition nl : string := String "010"%char EmptyString.

End Js.

(** ** Data model *)

Record IndexedChunk := {
  id : string;
  docPath : string;
  docName : string;
  page : nat;
  text : string;
}.

Record IndexState := {
  chunks : list IndexedChunk;
  df : gmap string nat;
  totalChunks : nat;
}.

(** ** Tokenizer and white-space normalisation *)

Definition normalizeWhitespace (input : string) : string :=
  Js.trim (Js.replaceSpaceRuns false input).

(** the replacement [/[^a-z0-9\s]/g -> " "] on one code unit *)
Definition keepWordChar (c : ascii) : ascii :=
  if Js.isLower c || Js.isDigit c || Js.isSpace c then c else " "%char.

Definition tokenize (t : string) : list string :=
  List.filter Js.truthy
    (Js.splitSpaceRuns false EmptyString
       (Js.mapChars keepWordChar (Js.toLowerCase t))).

(** ** Chunker *)

Definition targetChunkChars : nat := 900.

(** The identifier template [`${docName}-p${p}-${i}`]. *)
Definition chunkId (name : string) (p i : nat) : string :=
  name +:+ "-p" +:+ Js.ofNat p +:+ "-" +:+ Js.ofNat i.

(** The slicing loop [for (let i = 0; i < t.length; i += targetChunkChars)].
    [i] advances by 900 each turn, so [length t] turns always suffice; the
    loop is unrolled on that bound. *)
Fixpoint sliceLoop (fuel : nat) (absPath name : string) (p : nat)
    (t : string) (i : nat) : list IndexedChunk :=
  match fuel with
  | O => []
  | S fuel' =>
      if i <? String.length t
      then {| id := chunkId name p i;
              docPath := absPath;
              docName := name;
              page := p;
              text := Js.slice t i (Nat.min (i + targetChunkChars) (String.length t)) |}
           :: sliceLoop fuel' absPath name p t (i + targetChunkChars)
      else []
  end.

Definition sliceChunks (absPath name : string) (p : nat) (t : string)
    : list IndexedChunk :=
  sliceLoop (String.length t) absPath name p t 0.

(** ** The Node.js host *)

Record Host := {
  (** [process.env.DOC_PATHS] *)
  env_DOC_PATHS : option string;
  (** [path.basename], [path.isAbsolute], [path.resolve(process.cwd(), _)] *)
  path_basename : string -> string;
  path_isAbsolute : string -> bool;
  path_resolve : string -> string;
  (** [fs.existsSync] *)
  fs_existsSync : string -> bool;
  (** [execFileSync("pdfinfo", [abs])]; [None] when the call throws *)
  exec_pdfinfo : string -> option string;
  (** [execFileSync("pdftotext", [..., "-f", from, "-l", to, abs, "-"])] with
      the page range when one is given; [None] when the call throws *)
  exec_pdftotext : string -> option (nat * nat) -> option string;
  (** reading a file with pdfjs-dist: for every page the [str] of its text
      items; [None] when reading or parsing throws *)
  pdfjs_textItems : string -> option (list (list string));
}.

(** [process.env.DOC_PATHS?.split(",").map((p) => p.trim()).filter(Boolean) ?? []] *)
Definition envPaths (h : Host) : list string :=
  match env_DOC_PATHS h with
  | Some v => List.filter Js.truthy (List.map Js.trim (Js.splitComma EmptyString v))
  | None => []
  end.

(** ** Index construction *)

(** The chunk collection loop of [buildIndex], over the chunker
    [extractPdfChunks] and the default location [fallback] of a revision.
    The chunkers never throw (each catches its own failures), so the [catch]
    of the loop body has no case here. *)
Definition collectChunks (extractPdfChunks : Host -> string -> list IndexedChunk)
    (fallback : Host -> string) (h : Host) : list IndexedChunk :=
  let filePaths :=
    if 0 <? length (envPaths h) then envPaths h else [fallback h] in
  flat_map
    (fun p =>
       let abs := if path_isAbsolute h p then p else path_resolve h p in
       if fs_existsSync h abs then extractPdfChunks h abs else [])
    filePaths.

(** [new Set(tokens)] in iteration order: first occurrences, in order. *)
Definition uniqueTerms (tokens : list string) : list string :=
  fold_left (fun seen t => if decide (t ∈ seen) then seen else seen ++ [t])
            tokens [].

(** One turn of the outer loop that builds the DF map. *)
Definition countChunk (m : gmap string nat) (chunk : IndexedChunk)
    : gmap string nat :=
  fold_left (fun m term => <[term := Js.orElse (m !! term) 0 + 1]> m)
            (uniqueTerms (tokenize (text chunk))) m.

Definition buildDf (allChunks : list IndexedChunk) : gmap string nat :=
  fold_left countChunk allChunks ∅.

(** The value [buildIndex] returns for the collected chunks: the DF map is
    built from them and [totalChunks] is their number. *)
Definition mkIndex (allChunks : list IndexedChunk) : IndexState :=
  {| chunks := allChunks;
     df := buildDf allChunks;
     totalChunks := length allChunks |}.

(** ** Revision with pdfinfo / pdftotext: one chunk sequence per page *)

Module PdfToText.

(** The match of [/Pages:\s+(\d+)/] anchored at the start of [s]: the
    captured digits. *)
Definition matchPagesHere (s : string) : option string :=
  if String.prefix "Pages:" s
  then
    let r := String.substring 6 (String.length s - 6) s in
    match Js.takeWhile Js.isSpace r with
    | EmptyString => None
    | _ =>
        match Js.takeWhile Js.isDigit (Js.dropWhile Js.isSpace r) with
        | EmptyString => None
        | ds => Some ds
        end
    end
  else None.

(** [info.match(/Pages:\s+(\d+)/)]: the leftmost match, its group 1. *)
Fixpoint matchPages (s : string) : option string :=
  match matchPagesHere s with
  | Some ds => Some ds
  | None =>
      match s with
      | EmptyString => None
      | String _ s' => matchPages s'
      end
  end.

Definition run (out : option string) : string := default EmptyString out.

(** [let pages = 0; ... if (m) pages = parseInt(m[1], 10);] *)
Definition pageCount (h : Host) (absPath : string) : nat :=
  match matchPages (run (exec_pdfinfo h absPath)) with
  | Some ds => Js.parseInt ds
  | None => 0
  end.

(** [extractRange(from?, to?)]: the page range is passed on only when both
    bounds are truthy. *)
Definition extractRange (h : Host) (absPath : string)
    (from to : option nat) : string :=
  let range :=
    match from, to with
    | Some f, Some t => if (0 <? f) && (0 <? t) then Some (f, t) else None
    | _, _ => None
    end in
  normalizeWhitespace (run (exec_pdftotext h absPath range)).

Definition extractPdfChunks (h : Host) (absPath : string) : list IndexedChunk :=
  let name := path_basename h absPath in
  let pages := pageCount h absPath in
  if 0 <? pages
  then
    List.flat_map
      (fun p =>
         let pageText := extractRange h absPath (Some p) (Some p) in
         if Js.truthy pageText then sliceChunks absPath name p pageText else [])
      (List.seq 1 pages)
  else
    let all := extractRange h absPath None None in
    if Js.truthy all then sliceChunks absPath name 1 all else [].

Definition fallback (h : Host) : string :=
  path_resolve h
    "../../documents/2024_National_Custodial_Specification_October_2024-1.pdf".

Definition buildIndex (h : Host) : IndexState :=
  mkIndex (collectChunks extractPdfChunks fallback h).

End PdfToText.

(** ** Revision with pdfjs-dist: the whole document as page 1 *)

Module PdfJs.

(** [fullText] after the page loop: every page's items joined by a space,
    each page followed by a space. *)
(** [textContent.items.map((item) => item.str).join(" ")] *)
Definition pageText (items : list string) : string := Js.join " " items.

Definition fullText (pages : list (list string)) : string :=
  List.fold_left (fun acc items => acc +:+ (pageText items +:+ " "))
                 pages EmptyString.

Definition extractPdfChunks (h : Host) (absPath : string) : list IndexedChunk :=
  let name := path_basename h absPath in
  match pdfjs_textItems h absPath with
  | None => []
  | Some pages =>
      let normalizedText := normalizeWhitespace (fullText pages) in
      if Js.truthy normalizedText
      then sliceChunks absPath name 1 normalizedText
      else []
  end.

Definition fallback (h : Host) : string :=
  path_resolve h
    "public/documents/2024_National_Custodial_Specification_October_2024-1.pdf".

Definition buildIndex (h : Host) : IndexState :=
  mkIndex (collectChunks extractPdfChunks fallback h).

End PdfJs.

(** ** Index lifecycle *)

(** The process-wide cache [globalThis.__DOC_INDEX], passed explicitly. *)
Definition ensureIndex (buildIndex : Host -> IndexState) (h : Host)
    (g : option IndexState) : IndexState * option IndexState :=
  match g with
  | Some index => (index, g)
  | None => let index := buildIndex h in (index, Some index)
  end.

Definition resetIndex (g : option IndexState) : option IndexState := None.

(** ** Scorer *)

Definition termCounts (textTokens : list string) : gmap string nat :=
  fold_left (fun m t => <[t := Js.orElse (m !! t) 0 + 1]> m) textTokens ∅.

Definition scoreChunk (queryTokens : list string) (chunk : IndexedChunk)
    (df : gmap string nat) (total : nat) : R :=
  let counts := termCounts (tokenize (text chunk)) in
  fold_left
    (fun score qt =>
       let tf := Js.orElse (counts !! qt) 0 in
       if tf =? 0 then score
       else
         let docFreq := Js.orElse (df !! qt) 1 in
         let idf := ln (INR (total + 1) / INR (docFreq + 1)) in
         (score + INR tf * idf)%R)
    queryTokens 0%R.

(** ** Retriever *)

Record Scored := { c : IndexedChunk; s : R }.

Record Segment := {
  seg_docName : string;
  seg_page : nat;
  charCount : nat;
}.

Record RetrievedContext := {
  ctx_text : string;
  segments : list Segment;
}.

(** How a call completes: with a value, or by throwing. *)
Inductive Completion (A : Type) : Type :=
| Returns (v : A)
| Throws (message : string).
Arguments Returns {A} v.
Arguments Throws {A} message.

#[global] Instance Rlt_decision : RelDecision Rlt := Rlt_dec.

(** [Array.prototype.sort] is stable, and for a consistent comparator its
    result is the one stable ordering; it is computed here by insertion from
    the right: an element moves behind a later one exactly when the
    comparator is positive on the pair. *)
Fixpoint insertBy {A} (cmp : A -> A -> R) (x : A) (l : list A) : list A :=
  match l with
  | [] => [x]
  | y :: l' => if decide (0 < cmp x y)%R then y :: insertBy cmp x l' else x :: l
  end.

Definition sortBy {A} (cmp : A -> A -> R) (l : list A) : list A :=
  foldr (insertBy cmp) [] l.

(** The callback of [index.chunks.map]. *)
Definition scoredOf (index : IndexState) (qTokens : list string)
    (ch : IndexedChunk) : Scored :=
  {| c := ch; s := scoreChunk qTokens ch (df index) (totalChunks index) |}.

(** [index.chunks.map(...).sort((a, b) => b.s - a.s)] *)
Definition scoredAll (index : IndexState) (qTokens : list string) : list Scored :=
  sortBy (fun a b => (s b - s a)%R) (map (scoredOf index qTokens) (chunks index)).

(** The selection: positive scores up to [topK], else the first [topK]. *)
Definition pickChunks (index : IndexState) (query : string) (topK : Z)
    : list Scored :=
  let qTokens := tokenize query in
  let all := scoredAll index qTokens in
  let picked := Js.sliceTo (filter (fun x => (0 < s x)%R) all) topK in
  if length picked =? 0 then Js.sliceTo all topK else picked.

Definition header (ch : IndexedChunk) : string :=
  "[" +:+ docName ch +:+ " p." +:+ Js.ofNat (page ch) +:+ "]".

Definition block (ch : IndexedChunk) : string :=
  header ch +:+ Js.nl +:+ normalizeWhitespace (text ch).

Definition segmentOf (ch : IndexedChunk) : Segment :=
  {| seg_docName := docName ch;
     seg_page := page ch;
     charCount := String.length (block ch) |}.

(** The assembly loop [for (const { c } of picked)], over the [c] of the
    picked entries: the chunks whose blocks are pushed, given the characters
    [used] so far.  The [break] ends the loop at the first block that does
    not fit. *)
Fixpoint included (picked : list IndexedChunk) (charBudget : Z) (used : nat)
    : list IndexedChunk :=
  match picked with
  | [] => []
  | ch :: rest =>
      let len := String.length (block ch) in
      if (Z.of_nat (used + len + 4) >? charBudget)%Z then []
      else ch :: included rest charBudget (used + len + 4)
  end.

Definition separator : string := Js.nl +:+ Js.nl +:+ "---" +:+ Js.nl +:+ Js.nl.

Definition prefix : string :=
  "Relevant document excerpts (use for reference; cite when useful):"
  +:+ Js.nl +:+ Js.nl.

(** [getRelevantContext(query, charBudget = 4000, topK = 8)] on the index
    that [ensureIndex] hands it. *)
Definition getRelevantContext (index : IndexState) (query : string)
    (charBudget topK : Z) : Completion (option RetrievedContext) :=
  if totalChunks index =? 0 then Returns None
  else
    let picked := pickChunks index query topK in
    let inc := included (map c picked) charBudget 0 in
    let lines := map block inc in
    if length lines =? 0 then Returns None
    else Returns (Some {| ctx_text := prefix +:+ Js.join separator lines;
                          segments := map segmentOf inc |}).

Definition defaultCharBudget : Z := 4000.
Definition defaultTopK : Z := 8.

(** ** Vocabulary of the statements *)

(** The offsets the slicing loop visits. *)
Fixpoint offsets (fuel len i : nat) : list nat :=
  match fuel with
  | O => []
  | S fuel' =>
      if i <? len then i :: offsets fuel' len (i + targetChunkChars) else []
  end.

(** The chunk the loop body pushes at offset [i]. *)
Definition chunkAt (absPath name : string) (p : nat) (t : string) (i : nat)
    : IndexedChunk :=
  {| id := chunkId name p i;
     docPath := absPath;
     docName := name;
     page := p;
     text := Js.slice t i (Nat.min (i + targetChunkChars) (String.length t)) |}.

(** The texts of a chunk sequence, concatenated in order. *)
Definition catTexts (cs : list IndexedChunk) : string :=
  foldr (fun ch acc => text ch +:+ acc) EmptyString cs.

(** The window of [t] that starts at offset [i]. *)
Definition window (t : string) (i : nat) : string :=
  Js.slice t i (Nat.min (i + targetChunkChars) (String.length t)).

(** [ch] is sliced from [t]: its text is the window at some offset. *)
Definition slicedFrom (t : string) (ch : IndexedChunk) : Prop :=
  exists i, i < String.length t /\ text ch = window t i.

(** [cs] chunks the normalized page text [t]: no empty chunk, none longer
    than 900 characters, the chunks are the windows of [t] at increasing
    offsets, and their texts in that order give back [t]; an empty [t] has
    no chunk. *)
Definition chunksPage (t : string) (cs : list IndexedChunk) : Prop :=
  Forall (fun ch => 1 <= String.length (text ch) <= targetChunkChars) cs
  /\ (exists offs, StronglySorted lt offs /\ map text cs = map (window t) offs)
  /\ catTexts cs = t
  /\ (t = EmptyString -> cs = []).

(** A host with one two-page document, for the examples. *)
Definition demoPages : list (list string) :=
  [ ["Floors must be swept daily."]; ["Bins"; "emptied."] ].

Definition demoHost : Host :=
  {| env_DOC_PATHS := Some "/docs/spec.pdf";
     path_basename := fun _ => "spec.pdf";
     path_isAbsolute := fun _ => true;
     path_resolve := fun q => q;
     fs_existsSync := fun _ => true;
     exec_pdfinfo := fun _ => Some "Title: spec
Pages:          2
Encrypted: no";
     exec_pdftotext := fun _ range =>
       match range with
       | Some (1, _) => Some "Floors must be   swept daily.
"
       | Some (2, _) => Some "  Bins emptied. "
       | Some _ => None
       | None => Some "Floors must be swept daily. Bins emptied."
       end;
     pdfjs_textItems := fun _ => Some demoPages |}.

(** [ch] carries the 1-based number of the page it was sliced from, the
    raw page texts being [pageTexts]. *)
Definition carriesSourcePage (pageTexts : list string) (ch : IndexedChunk) : Prop :=
  exists t, 1 <= page ch /\ pageTexts !! (page ch - 1) = Some t
            /\ slicedFrom (normalizeWhitespace t) ch.

(** The locations [buildIndex] hands to the chunker: the configured ones
    (or the default), made absolute, that exist. *)
Definition indexedPaths (fallback : Host -> string) (h : Host) : list string :=
  filter (fun abs => fs_existsSync h abs = true)
    (map (fun q => if path_isAbsolute h q then q else path_resolve h q)
         (if 0 <? length (envPaths h) then envPaths h else [fallback h])).

(** The demo host with its document configured twice. *)
Definition twiceHost : Host :=
  {| env_DOC_PATHS := Some "/docs/spec.pdf,/docs/spec.pdf";
     path_basename := path_basename demoHost;
     path_isAbsolute := path_isAbsolute demoHost;
     path_resolve := path_resolve demoHost;
     fs_existsSync := fs_existsSync demoHost;
     exec_pdfinfo := exec_pdfinfo demoHost;
     exec_pdftotext := exec_pdftotext demoHost;
     pdfjs_textItems := pdfjs_textItems demoHost |}.

(** The number of chunks of [cs] whose tokenized text contains [t]. *)
Definition chunksContaining (t : string) (cs : list IndexedChunk) : nat :=
  length (filter (fun ch => t ∈ tokenize (text ch)) cs).

(** What one query token adds to the score in the loop of [scoreChunk]. *)
Definition contribution (counts df : gmap string nat) (total : nat)
    (qt : string) : R :=
  let tf := Js.orElse (counts !! qt) 0 in
  if tf =? 0 then 0%R
  else (INR tf * ln (INR (total + 1) / INR (Js.orElse (df !! qt) 1 + 1)))%R.

Definition sumR (xs : list R) : R := foldr Rplus 0%R xs.



(** What the budget check charges for a list of segments: every
    [charCount] plus the fixed overhead of 4. *)
Definition budgetCharged (segs : list Segment) : nat :=
  sum_list_with (fun sg => charCount sg + 4) segs.

(** The characters of the blocks themselves. *)
Definition contentChars (segs : list Segment) : nat :=
  sum_list_with charCount segs.

(** The index the page-by-page revision builds on the demo host: two
    chunks, the first longer than the second. *)
Definition demoIndex : IndexState := PdfToText.buildIndex demoHost.

(** The index the pdfjs revision builds on the demo host: one chunk. *)
Definition demoIndexJs : IndexState := PdfJs.buildIndex demoHost.

(** The one chunk of [demoIndexJs] and the result that a query without
    tokens retrieves from it within a budget of 60. *)
Definition demoChunkJs : IndexedChunk :=
  {| id := "spec.pdf-p1-0";
     docPath := "/docs/spec.pdf";
     docName := "spec.pdf";
     page := 1;
     text := "Floors must be swept daily. Bins emptied." |}.

Definition demoResult : RetrievedContext :=
  {| ctx_text := prefix +:+ block demoChunkJs;
     segments := [segmentOf demoChunkJs] |}.

(** The second chunk of [demoIndex], and a small document-frequency table. *)
Definition demoChunk2 : IndexedChunk :=
  {| id := "spec.pdf-p2-0";
     docPath := "/docs/spec.pdf";
     docName := "spec.pdf";
     page := 2;
     text := "Bins emptied." |}.

Definition demoDf : gmap string nat := {[ "bins" := 1 ]}.

(** The first chunk of [demoIndex]. *)
Definition demoChunk1 : IndexedChunk :=
  {| id := "spec.pdf-p1-0";
     docPath := "/docs/spec.pdf";
     docName := "spec.pdf";
     page := 1;
     text := "Floors must be swept daily." |}.

(** A text of [n] characters. *)
Definition filler (n : nat) : string :=
  String.string_of_list_ascii (replicate n "x"%char).

(** ** Diagnostics *)

Record FileDiagnostics := { fd_docName : string; fd_pages : nat }.

Record ConfiguredPath := { cp_path : string; cp_exists : bool }.

Record IndexDiagnostics := {
  diag_totalChunks : nat;
  diag_files : list FileDiagnostics;
  diag_configuredPaths : list ConfiguredPath;
}.

(** [Set.prototype.add], the set kept in insertion order. *)
Definition setAdd (ps : list nat) (p : nat) : list nat :=
  if decide (p ∈ ps) then ps else ps ++ [p].

(** One turn of the loop over [idx.chunks]; the [Map<string, Set<number>>]
    is kept in insertion order, as [entries()] lists it. *)
Definition notePage (m : list (string * list nat)) (ch : IndexedChunk)
    : list (string * list nat) :=
  let m1 := if decide (docName ch ∈ map fst m) then m
            else m ++ [(docName ch, [])] in
  map (fun e => if decide (fst e = docName ch)
                then (fst e, setAdd (snd e) (page ch)) else e) m1.

Definition fileToPages (cs : list IndexedChunk) : list (string * list nat) :=
  fold_left notePage cs [].

(** [getIndexDiagnostics()], on the index [ensureIndex] hands it and with
    the default location [fallback] of the revision. *)
Definition getIndexDiagnostics (fallback : Host -> string) (h : Host)
    (idx : IndexState) : IndexDiagnostics :=
  let filePaths :=
    if 0 <? length (envPaths h) then envPaths h else [fallback h] in
  {| diag_totalChunks := totalChunks idx;
     diag_files :=
       map (fun e => {| fd_docName := fst e; fd_pages := length (snd e) |})
           (fileToPages (chunks idx));
     diag_configuredPaths :=
       map (fun p =>
              let abs := if path_isAbsolute h p then p else path_resolve h p in
              {| cp_path := abs; cp_exists := fs_existsSync h abs |})
           filePaths |}.

(** ** Corpus scan *)

Record PageScan := {
  ps_page : nat;
  extractedChars : nat;
  usedOcr : bool;
  ps_error : option string;
}.

Record DocScan := {
  ds_path : string;
  ds_exists : bool;
  ds_pages : option (list PageScan);
}.

Module PdfToTextScan.

(** The scan calls [execFileSync] without the [maxBuffer] option that the
    chunker's [run] raises to 50 MiB, so a call of the scan throws also when
    the output of the command exceeds the default buffer; [overflows out]
    tells whether an output does.  [scanExec] is the outcome of a call of the
    scan, given the outcome [r] of the same call made by the chunker. *)
Definition scanExec (overflows : string -> bool) (r : option string)
    : option string :=
  match r with
  | Some out => if overflows out then None else Some out
  | None => None
  end.

(** The page count as the scan reads it: [pdfinfo] inside its own
    [try]/[catch], 0 when it throws or prints no count. *)
Definition scanPageCount (h : Host) (overflows : string -> bool) (abs : string)
    : nat :=
  match scanExec overflows (exec_pdfinfo h abs) with
  | Some info =>
      match PdfToText.matchPages info with
      | Some ds => Js.parseInt ds
      | None => 0
      end
  | None => 0
  end.

(** The entry of page [pg]; [errorText abs pg] is [e?.message || String(e)]
    of the error [pdftotext] throws on that page. *)
Definition scanPage (h : Host) (overflows : string -> bool)
    (errorText : string -> nat -> string) (abs : string) (pg : nat) : PageScan :=
  match scanExec overflows (exec_pdftotext h abs (Some (pg, pg))) with
  | Some out =>
      let t := normalizeWhitespace (if Js.truthy out then out else EmptyString) in
      {| ps_page := pg; extractedChars := String.length t;
         usedOcr := false; ps_error := None |}
  | None =>
      {| ps_page := pg; extractedChars := 0;
         usedOcr := false; ps_error := Some (errorText abs pg) |}
  end.

(** [scanConfiguredPdfs(maxPages = 10)]; nothing outside the two inner
    [try] blocks can throw, so the outer [catch] has no case here. *)
Definition scanConfiguredPdfs (h : Host) (overflows : string -> bool)
    (errorText : string -> nat -> string) (maxPages : Z) : list DocScan :=
  let filePaths :=
    if 0 <? length (envPaths h) then envPaths h else [PdfToText.fallback h] in
  map
    (fun p =>
       let abs := if path_isAbsolute h p then p else path_resolve h p in
       if fs_existsSync h abs
       then
         let pages := scanPageCount h overflows abs in
         let upto := if 0 <? pages then Z.min maxPages (Z.of_nat pages)
                     else maxPages in
         {| ds_path := abs; ds_exists := true;
            ds_pages := Some (map (scanPage h overflows errorText abs)
                                  (seq 1 (Z.to_nat upto))) |}
       else {| ds_path := abs; ds_exists := false; ds_pages := None |})
    filePaths.

End PdfToTextScan.

Module PdfJsScan.

(** [scanConfiguredPdfs]; [maxPages] is not used by this revision, and
    [errorText abs] is [e?.message || String(e)] of the error that reading
    or parsing [abs] throws. *)
Definition scanConfiguredPdfs (h : Host) (errorText : string -> string)
    (maxPages : Z) : list DocScan :=
  let filePaths :=
    if 0 <? length (envPaths h) then envPaths h else [PdfJs.fallback h] in
  map
    (fun p =>
       let abs := if path_isAbsolute h p then p else path_resolve h p in
       if fs_existsSync h abs
       then
         match pdfjs_textItems h abs with
         | Some pages =>
             let t := normalizeWhitespace (PdfJs.fullText pages) in
             {| ds_path := abs; ds_exists := true;
                ds_pages := Some [ {| ps_page := 1;
                                      extractedChars := String.length t;
                                      usedOcr := false; ps_error := None |} ] |}
         | None =>
             {| ds_path := abs; ds_exists := true;
                ds_pages := Some [ {| ps_page := 0; extractedChars := 0;
                                      usedOcr := false;
                                      ps_error := Some (errorText abs) |} ] |}
         end
       else {| ds_path := abs; ds_exists := false; ds_pages := None |})
    filePaths.

End PdfJsScan.

(** ** The request handler's use of the retriever (api/analyze/route.ts) *)

(** [const retrieved = await getRelevantContext(prompt, 6000, 8)] *)
Definition retrieved (index : IndexState) (prompt : string)
    : Completion (option RetrievedContext) :=
  getRelevantContext index prompt 6000 8.

Definition answerHint : string :=
  Js.nl +:+ Js.nl +:+
  "When answering, base your judgment on the provided excerpts where relevant. If the excerpts are irrelevant, state your reasoning without them.".

(** [retrieved?.text ? `${retrieved.text}...` : undefined] *)
Definition systemPrefix (index : IndexState) (prompt : string) : option string :=
  match retrieved index prompt with
  | Returns (Some r) =>
      if Js.truthy (ctx_text r) then Some (ctx_text r +:+ answerHint) else None
  | _ => None
  end.

(** [contextMeta: retrieved?.segments ?? []] *)
Definition contextMeta (index : IndexState) (prompt : string) : list Segment :=
  match retrieved index prompt with
  | Returns (Some r) => segments r
  | _ => []
  end.

(** ** Cache histories *)

Inductive CacheOp :=
| Ensure (h : Host)
| Reset.

Definition stepCache (buildIndex : Host -> IndexState)
    (g : option IndexState) (op : CacheOp) : option IndexState :=
  match op with
  | Ensure h => snd (ensureIndex buildIndex h g)
  | Reset => resetIndex g
  end.

Definition runCache (buildIndex : Host -> IndexState) (ops : list CacheOp)
    (g : option IndexState) : option IndexState :=
  fold_left (stepCache buildIndex) ops g.

(** ** More vocabulary *)

Fixpoint allChars (p : ascii -> bool) (s : string) : bool :=
  match s with
  | EmptyString => true
  | String c s' => p c && allChars p s'
  end.

(** The characters a token is made of: [a-z0-9]. *)
Definition isWordChar (c : ascii) : bool := Js.isLower c || Js.isDigit c.

(** White space is squeezed in [s]: every white-space character is a plain
    space and no two of them are adjacent; [prevSpace] tells whether a space
    precedes [s]. *)
Fixpoint squeezedFrom (prevSpace : bool) (s : string) : bool :=
  match s with
  | EmptyString => true
  | String c s' =>
      if Js.isSpace c
      then Ascii.eqb c " " && negb prevSpace && squeezedFrom true s'
      else squeezedFrom false s'
  end.

Fixpoint lastIsSpace (s : string) : bool :=
  match s with
  | EmptyString => false
  | String c EmptyString => Js.isSpace c
  | String _ s' => lastIsSpace s'
  end.

(** [s] is white-space normalized: squeezed, with no space at either end. *)
Definition Normalized (s : string) : Prop :=
  squeezedFrom true s = true /\ lastIsSpace s = false.

(** Removing the white space at the end of [s]. *)
Fixpoint trimEnd (s : string) : string :=
  match s with
  | EmptyString => EmptyString
  | String c s' =>
      match trimEnd s' with
      | EmptyString => if Js.isSpace c then EmptyString else String c EmptyString
      | r => String c r
      end
  end.

(** [Js.dropWhile] and [trimEnd] on lists of characters. *)
Fixpoint dropWhileL (p : ascii -> bool) (l : list ascii) : list ascii :=
  match l with
  | [] => []
  | c :: l' => if p c then dropWhileL p l' else l
  end.

Fixpoint dropEndL (p : ascii -> bool) (l : list ascii) : list ascii :=
  match l with
  | [] => []
  | c :: l' =>
      match dropEndL p l' with
      | [] => if p c then [] else [c]
      | r => c :: r
      end
  end.

(** The total number of characters of the texts of [cs]. *)
Definition textChars (cs : list IndexedChunk) : nat :=
  sum_list_with (fun ch => String.length (text ch)) cs.

(** What every chunk of a built index satisfies, [h] being the host it was
    built on and [paths] the locations that were indexed. *)
Definition wellFormedChunk (h : Host) (paths : list string) (ch : IndexedChunk)
    : Prop :=
  docPath ch ∈ paths
  /\ docName ch = path_basename h (docPath ch)
  /\ 1 <= page ch
  /\ (exists k, id ch = chunkId (docName ch) (page ch) (targetChunkChars * k))
  /\ 1 <= String.length (text ch) <= targetChunkChars
  /\ squeezedFrom false (text ch) = true
  /\ allChars Js.isSpace (text ch) = false.

(** How often [t] occurs in a token list. *)
Definition occurrences (t : string) (tokens : list string) : nat :=
  length (filter (fun u => u = t) tokens).

(** The number of distinct pages among the chunks of [cs] named [d]. *)
Definition distinctPages (d : string) (cs : list IndexedChunk) : nat :=
  length (remove_dups (map page (filter (fun ch => docName ch = d) cs))).

(** What the map holds after the chunks [cs] have been noted. *)
Definition pagesNoted (cs : list IndexedChunk) (m : list (string * list nat)) : Prop :=
  NoDup (map fst m)
  /\ (forall d, d ∈ map fst m <-> exists ch, ch ∈ cs /\ docName ch = d)
  /\ (forall d ps, (d, ps) ∈ m ->
        NoDup ps
        /\ forall p, p ∈ ps <-> exists ch, ch ∈ cs /\ docName ch = d /\ page ch = p).



Definition demoDocScanJs : DocScan :=
  {| ds_path := "/docs/spec.pdf"; ds_exists := true;
     ds_pages := Some [ {| ps_page := 1; extractedChars := 41;
                           usedOcr := false; ps_error := None |} ] |}.

(** [s.includes(pat)] *)
Fixpoint includes (pat s : string) : bool :=
  String.prefix pat s
  || match s with
     | EmptyString => false
     | String _ s' => includes pat s'
     end.

(** A host whose [DOC_PATHS] holds only blanks and commas. *)
Definition blankHost : Host :=
  {| env_DOC_PATHS := Some " , ,";
     path_basename := path_basename demoHost;
     path_isAbsolute := path_isAbsolute demoHost;
     path_resolve := path_resolve demoHost;
     fs_existsSync := fs_existsSync demoHost;
     exec_pdfinfo := exec_pdfinfo demoHost;
     exec_pdftotext := exec_pdftotext demoHost;
     pdfjs_textItems := pdfjs_textItems demoHost |}.




(** ** The request handler's use of the index (api/analyze/route.ts) *)



(** * Properties *)

(** ** The embedding on concrete inputs *)

Example tokenize_sentence :
  tokenize "Floors must be  swept daily. Trash-bins (2x)"
  = ["floors"; "must"; "be"; "swept"; "daily"; "trash"; "bins"; "2x"].
Proof. reflexivity. Qed.

Example split_keeps_empty_ends :
  Js.splitSpaceRuns false EmptyString " a  b " = [""; "a"; "b"; ""].
Proof. reflexivity. Qed.

Example normalize_demo_page :
  normalizeWhitespace "  Bins   emptied. " = "Bins emptied.".
Proof. reflexivity. Qed.

Example pdfinfo_page_count : PdfToText.pageCount demoHost "/docs/spec.pdf" = 2.
Proof. reflexivity. Qed.

Example demoIndex_chunks : chunks demoIndex = [demoChunk1; demoChunk2].
Proof. reflexivity. Qed.

Example demoIndexJs_chunks : chunks demoIndexJs = [demoChunkJs].
Proof. reflexivity. Qed.

Example demoIndex_df :
  df demoIndex !! "bins" = Some 1 /\ df demoIndex !! "trash" = None.
Proof. by vm_compute. Qed.

(** Windows of 900 characters, the last one shorter. *)
Example slices_of_1801 :
  map (fun ch => (id ch, String.length (text ch)))
      (sliceChunks "/docs/spec.pdf" "spec.pdf" 3 (filler 1801))
  = [("spec.pdf-p3-0", 900); ("spec.pdf-p3-900", 900); ("spec.pdf-p3-1800", 1)].
Proof. by vm_compute. Qed.

Example sliceTo_signs :
  Js.sliceTo [1; 2; 3; 4] 2 = [1; 2]
  /\ Js.sliceTo [1; 2; 3; 4] 9 = [1; 2; 3; 4]
  /\ Js.sliceTo [1; 2; 3; 4] (-1) = [1; 2; 3]
  /\ Js.sliceTo [1; 2; 3; 4] (-9) = [].
Proof. by vm_compute. Qed.

(** ** Strings *)

Section StringFacts.

Lemma length_app_string (a b : string) :
  String.length (a +:+ b) = String.length a + String.length b.
Proof. induction a as [|ch a IH]; simpl; [done | by rewrite IH]. Qed.

Lemma string_app_cons (ch : ascii) (a b : string) :
  String ch a +:+ b = String ch (a +:+ b).
Proof. reflexivity. Qed.

Lemma string_app_nil_r (a : string) : a +:+ EmptyString = a.
Proof.
  induction a as [|ch a IH]; [done |].
  by rewrite string_app_cons, IH.
Qed.

Lemma substring_nil (n m : nat) : String.substring n m EmptyString = EmptyString.
Proof. by destruct n, m. Qed.

Lemma substring_zero_len (n : nat) (t : string) :
  String.substring n 0 t = EmptyString.
Proof.
  revert n; induction t as [|ch t IH]; intros n.
  - apply substring_nil.
  - destruct n; simpl; [done | apply IH].
Qed.

Lemma length_substring (t : string) (n m : nat) :
  String.length (String.substring n m t) = Nat.min m (String.length t - n).
Proof.
  revert n m; induction t as [|ch t IH]; intros n m.
  - rewrite substring_nil. simpl. lia.
  - destruct n as [|n]; simpl.
    + destruct m as [|m]; simpl; [done |].
      rewrite IH. f_equal. f_equal. lia.
    + apply IH.
Qed.

Lemma substring_split (t : string) (n a b : nat) :
  String.substring n (a + b) t
  = String.substring n a t +:+ String.substring (n + a) b t.
Proof.
  revert n a; induction t as [|ch t IH]; intros n a.
  - by rewrite !substring_nil.
  - destruct n as [|n]; simpl.
    + destruct a as [|a]; simpl; [done |].
      by rewrite (IH 0 a).
    + apply IH.
Qed.

Lemma substring_all (t : string) :
  String.substring 0 (String.length t) t = t.
Proof. induction t as [|ch t IH]; simpl; [done | by rewrite IH]. Qed.

Lemma substring_past (t : string) (n m : nat) :
  String.length t <= n -> String.substring n m t = EmptyString.
Proof.
  revert n m; induction t as [|ch t IH]; intros n m Hn.
  - apply substring_nil.
  - destruct n as [|n]; simpl in *; [lia |]. apply IH. lia.
Qed.

Lemma truthy_false (t : string) : Js.truthy t = false -> t = EmptyString.
Proof. by destruct t. Qed.

Lemma truthy_length (t : string) : Js.truthy t = true <-> 0 < String.length t.
Proof. destruct t; simpl; split; (done || lia). Qed.

End StringFacts.

(** ** Chunker *)

Section Chunker.

Variables (absPath name : string) (p : nat) (t : string).

Lemma sliceLoop_offsets (fuel i : nat) :
  sliceLoop fuel absPath name p t i
  = map (chunkAt absPath name p t) (offsets fuel (String.length t) i).
Proof.
  revert i; induction fuel as [|fuel IH]; intros i; simpl; [done |].
  destruct (i <? String.length t); simpl; [| done].
  by rewrite IH.
Qed.

Lemma sliceChunks_offsets :
  sliceChunks absPath name p t
  = map (chunkAt absPath name p t) (offsets (String.length t) (String.length t) 0).
Proof. apply sliceLoop_offsets. Qed.

Lemma offsets_bounds (fuel len i k : nat) :
  k ∈ offsets fuel len i -> i <= k < len.
Proof.
  revert i; induction fuel as [|fuel IH]; intros i; simpl.
  - by intros ?%elem_of_nil.
  - destruct (Nat.ltb_spec i len) as [Hlt|Hge].
    + intros [->|Hin]%elem_of_cons; [lia |].
      apply IH in Hin. unfold targetChunkChars in Hin. lia.
    + by intros ?%elem_of_nil.
Qed.

Lemma offsets_NoDup (fuel len i : nat) : NoDup (offsets fuel len i).
Proof.
  revert i; induction fuel as [|fuel IH]; intros i; simpl.
  - constructor.
  - destruct (i <? len); [| constructor].
    constructor; [| apply IH].
    intros Hin%offsets_bounds. unfold targetChunkChars in Hin. lia.
Qed.

Lemma offsets_past (fuel len i : nat) : len <= i -> offsets fuel len i = [].
Proof.
  intros Hle. destruct fuel as [|fuel]; simpl; [done |].
  destruct (Nat.ltb_spec i len); [lia | done].
Qed.

Lemma catTexts_offsets (fuel i : nat) :
  i <= String.length t -> String.length t - i <= fuel ->
  catTexts (map (chunkAt absPath name p t) (offsets fuel (String.length t) i))
  = String.substring i (String.length t - i) t.
Proof.
  revert i; induction fuel as [|fuel IH]; intros i Hi Hfuel; simpl.
  - replace (String.length t - i) with 0 by lia.
    by rewrite substring_zero_len.
  - destruct (Nat.ltb_spec i (String.length t)) as [Hlt|Hge]; simpl.
    + unfold Js.slice.
      destruct (Nat.le_gt_cases (i + targetChunkChars) (String.length t)) as [Hin|Hout].
      * rewrite IH by (unfold targetChunkChars in *; lia).
        rewrite Nat.min_l by done.
        replace (String.length t - i)
          with ((i + targetChunkChars - i)
                + (String.length t - (i + targetChunkChars))) by lia.
        rewrite substring_split.
        do 2 f_equal; lia.
      * rewrite offsets_past by lia. simpl.
        rewrite Nat.min_r by lia.
        apply string_app_nil_r.
    + replace (String.length t - i) with 0 by lia.
      by rewrite substring_zero_len.
Qed.

Lemma chunkAt_length (i : nat) :
  i < String.length t ->
  1 <= String.length (text (chunkAt absPath name p t i)) <= targetChunkChars.
Proof.
  intros Hi. simpl. unfold Js.slice. rewrite length_substring.
  unfold targetChunkChars. lia.
Qed.

Lemma sliceChunks_lengths :
  Forall (fun ch => 1 <= String.length (text ch) <= targetChunkChars)
         (sliceChunks absPath name p t).
Proof.
  rewrite sliceChunks_offsets.
  apply Forall_forall. intros ch (i & -> & Hi%offsets_bounds)%list_elem_of_fmap.
  apply chunkAt_length. lia.
Qed.

Lemma sliceChunks_catTexts : catTexts (sliceChunks absPath name p t) = t.
Proof.
  rewrite sliceChunks_offsets, catTexts_offsets by lia.
  rewrite Nat.sub_0_r. apply substring_all.
Qed.

Lemma sliceChunks_page :
  Forall (fun ch => page ch = p /\ docName ch = name /\ docPath ch = absPath
                    /\ slicedFrom t ch)
         (sliceChunks absPath name p t).
Proof.
  rewrite sliceChunks_offsets.
  apply Forall_forall. intros ch (i & -> & Hi%offsets_bounds)%list_elem_of_fmap.
  repeat split. exists i. split; [lia | done].
Qed.

Lemma sliceChunks_empty : sliceChunks absPath name p EmptyString = [].
Proof. done. Qed.

End Chunker.
Section ChunkerPages.

Lemma offsets_sorted (fuel len i : nat) : StronglySorted lt (offsets fuel len i).
Proof.
  revert i; induction fuel as [|fuel IH]; intros i; simpl; [constructor |].
  destruct (i <? len); [| constructor].
  constructor; [apply IH |].
  apply Forall_forall. intros k Hk%offsets_bounds.
  unfold targetChunkChars in Hk. lia.
Qed.

Lemma sliceChunks_windows (absPath name : string) (p : nat) (t : string) :
  exists offs, StronglySorted lt offs
               /\ map text (sliceChunks absPath name p t) = map (window t) offs.
Proof.
  exists (offsets (String.length t) (String.length t) 0).
  split; [apply offsets_sorted |].
  rewrite sliceChunks_offsets. by rewrite <- list_fmap_compose.
Qed.

Lemma guarded_sliceChunks (absPath name : string) (p : nat) (t : string) :
  (if Js.truthy t then sliceChunks absPath name p t else [])
  = sliceChunks absPath name p t.
Proof. by destruct t. Qed.

Lemma filter_all {A} (P : A -> Prop) `{!forall x, Decision (P x)} (l : list A) :
  Forall P l -> filter P l = l.
Proof.
  induction 1 as [|x l Hx _ IH]; [done |].
  by rewrite filter_cons_True, IH.
Qed.

Lemma filter_none {A} (P : A -> Prop) `{!forall x, Decision (P x)} (l : list A) :
  Forall (fun x => ~ P x) l -> filter P l = [].
Proof.
  induction 1 as [|x l Hx _ IH]; [done |].
  by rewrite filter_cons_False, IH.
Qed.

(** Keeping the chunks of one page out of a page-by-page concatenation. *)
Lemma filter_page_flat_map (f : nat -> list IndexedChunk) (ps : list nat) (p : nat) :
  (forall q, Forall (fun ch => page ch = q) (f q)) ->
  NoDup ps -> p ∈ ps ->
  filter (fun ch => page ch = p) (flat_map f ps) = f p.
Proof.
  intros Hpage.
  assert (Hother : forall qs, p ∉ qs ->
            filter (fun ch => page ch = p) (flat_map f qs) = []).
  { induction qs as [|q qs IH]; intros Hnin; simpl; [done |].
    rewrite filter_app, IH by set_solver. rewrite app_nil_r.
    apply filter_none. eapply Forall_impl; [apply (Hpage q) |].
    simpl. intros ch ->. set_solver. }
  induction ps as [|q ps IH]; intros Hnd Hin; [by apply elem_of_nil in Hin |].
  apply NoDup_cons in Hnd as [Hq Hnd]. simpl. rewrite filter_app.
  destruct (decide (q = p)) as [->|Hne].
  - rewrite Hother by done. rewrite app_nil_r.
    apply filter_all, Hpage.
  - apply elem_of_cons in Hin as [?|Hin]; [done |].
    rewrite IH by done.
    rewrite filter_none; [done |].
    eapply Forall_impl; [apply (Hpage q) |]. simpl. by intros ch ->.
Qed.

Lemma PdfToText_pages_branch (h : Host) (absPath : string) :
  0 < PdfToText.pageCount h absPath ->
  PdfToText.extractPdfChunks h absPath
  = flat_map
      (fun q => sliceChunks absPath (path_basename h absPath) q
                  (PdfToText.extractRange h absPath (Some q) (Some q)))
      (seq 1 (PdfToText.pageCount h absPath)).
Proof.
  intros Hpos. unfold PdfToText.extractPdfChunks.
  destruct (Nat.ltb_spec 0 (PdfToText.pageCount h absPath)); [| lia].
  apply flat_map_ext. intros q. apply guarded_sliceChunks.
Qed.

Lemma PdfToText_whole_branch (h : Host) (absPath : string) :
  PdfToText.pageCount h absPath = 0 ->
  PdfToText.extractPdfChunks h absPath
  = sliceChunks absPath (path_basename h absPath) 1
      (PdfToText.extractRange h absPath None None).
Proof.
  intros Hzero. unfold PdfToText.extractPdfChunks. rewrite Hzero. simpl.
  apply guarded_sliceChunks.
Qed.

Lemma PdfJs_chunks (h : Host) (absPath : string) (pages : list (list string)) :
  pdfjs_textItems h absPath = Some pages ->
  PdfJs.extractPdfChunks h absPath
  = sliceChunks absPath (path_basename h absPath) 1
      (normalizeWhitespace (PdfJs.fullText pages)).
Proof.
  intros Hread. unfold PdfJs.extractPdfChunks. rewrite Hread.
  apply guarded_sliceChunks.
Qed.

Lemma chunksPage_sliceChunks (absPath name : string) (p : nat) (t : string) :
  chunksPage t (sliceChunks absPath name p t).
Proof.
  split; [apply sliceChunks_lengths |].
  split; [apply sliceChunks_windows |].
  split; [apply sliceChunks_catTexts | by intros ->].
Qed.

End ChunkerPages.

(** C8.  For every page whose white-space-normalized text is non-empty the
    chunker produces only non-empty chunks of at most 900 characters, the
    windows of that text at increasing offsets, and the concatenation of the
    page's chunks in that order is the normalized page text itself; a page
    whose normalized text is empty contributes no chunk.  This holds for each
    page of the page-by-page revision, for its whole-document branch, and for
    the pdfjs revision's single page. *)
Theorem chunking_reconstructs_page (h : Host) (absPath : string) :
  (forall p, 1 <= p <= PdfToText.pageCount h absPath ->
     chunksPage (PdfToText.extractRange h absPath (Some p) (Some p))
       (filter (fun ch => page ch = p) (PdfToText.extractPdfChunks h absPath)))
  /\ (PdfToText.pageCount h absPath = 0 ->
      chunksPage (PdfToText.extractRange h absPath None None)
        (PdfToText.extractPdfChunks h absPath))
  /\ (forall pages, pdfjs_textItems h absPath = Some pages ->
      chunksPage (normalizeWhitespace (PdfJs.fullText pages))
        (PdfJs.extractPdfChunks h absPath)).
Proof.
  split; [| split].
  - intros p Hp. rewrite PdfToText_pages_branch by lia.
    rewrite (filter_page_flat_map
               (fun q => sliceChunks absPath (path_basename h absPath) q
                           (PdfToText.extractRange h absPath (Some q) (Some q)))).
    + apply chunksPage_sliceChunks.
    + intros q. eapply Forall_impl; [apply sliceChunks_page |].
      simpl. by intros ch (Hq & _).
    + apply NoDup_seq.
    + apply elem_of_seq. lia.
  - intros Hzero. rewrite PdfToText_whole_branch by done.
    apply chunksPage_sliceChunks.
  - intros pages Hread. rewrite (PdfJs_chunks h absPath pages) by done.
    apply chunksPage_sliceChunks.
Qed.

Lemma chunking_reconstructs_page_witness :
  chunksPage (PdfToText.extractRange demoHost "/docs/spec.pdf" (Some 2) (Some 2))
    (filter (fun ch => page ch = 2)
            (PdfToText.extractPdfChunks demoHost "/docs/spec.pdf")).
Proof.
  apply (proj1 (chunking_reconstructs_page demoHost "/docs/spec.pdf")).
  vm_compute. lia.
Defined.

(** C6, as the code has it.  In the page-by-page revision, when pdfinfo gives
    a positive page count every chunk carries the 1-based number of the page
    whose normalized text it is a window of, and otherwise (no count, or a
    count of zero) every chunk is a window of the whole document's normalized
    text and is numbered 1.  In the pdfjs revision every chunk is a window of
    the whole document's normalized text and is numbered 1, whatever the
    number of pages read. *)
Theorem chunk_page_numbers (h : Host) (absPath : string) (ch : IndexedChunk) :
  (ch ∈ PdfToText.extractPdfChunks h absPath ->
     if 0 <? PdfToText.pageCount h absPath
     then 1 <= page ch <= PdfToText.pageCount h absPath
          /\ slicedFrom (PdfToText.extractRange h absPath (Some (page ch)) (Some (page ch))) ch
     else page ch = 1
          /\ slicedFrom (PdfToText.extractRange h absPath None None) ch)
  /\ (forall pages, pdfjs_textItems h absPath = Some pages ->
      ch ∈ PdfJs.extractPdfChunks h absPath ->
      page ch = 1 /\ slicedFrom (normalizeWhitespace (PdfJs.fullText pages)) ch).
Proof.
  split.
  - intros Hin. destruct (Nat.ltb_spec 0 (PdfToText.pageCount h absPath)) as [Hpos|Hzero].
    + rewrite PdfToText_pages_branch in Hin by done.
      apply list_elem_of_In, in_flat_map in Hin as (q & Hq & Hin).
      apply list_elem_of_In, elem_of_seq in Hq.
      apply list_elem_of_In in Hin.
      pose proof (sliceChunks_page absPath (path_basename h absPath) q
                    (PdfToText.extractRange h absPath (Some q) (Some q))) as Hall.
      rewrite Forall_forall in Hall.
      destruct (Hall ch Hin) as (-> & _ & _ & Hsl). split; [lia | done].
    + rewrite PdfToText_whole_branch in Hin by lia.
      pose proof (sliceChunks_page absPath (path_basename h absPath) 1
                    (PdfToText.extractRange h absPath None None)) as Hall.
      rewrite Forall_forall in Hall.
      by destruct (Hall ch Hin) as (-> & _ & _ & Hsl).
  - intros pages Hread Hin.
    rewrite (PdfJs_chunks h absPath pages) in Hin by done.
    pose proof (sliceChunks_page absPath (path_basename h absPath) 1
                  (normalizeWhitespace (PdfJs.fullText pages))) as Hall.
    rewrite Forall_forall in Hall.
    by destruct (Hall ch Hin) as (-> & _ & _ & Hsl).
Qed.

Lemma chunk_page_numbers_witness :
  1 <= page demoChunk2 <= 2
  /\ slicedFrom (PdfToText.extractRange demoHost "/docs/spec.pdf" (Some 2) (Some 2))
                demoChunk2.
Proof.
  apply (proj1 (chunk_page_numbers demoHost "/docs/spec.pdf" demoChunk2)).
  vm_compute. apply list_elem_of_further, list_elem_of_here.
Defined.

(** C6, as stated, fails on the pdfjs revision: the demo document has two
    pages, both read, yet its one chunk is numbered 1 and is not a window of
    page 1's normalized text (it runs on into page 2). *)
Lemma pdfjs_chunk_not_from_its_page :
  pdfjs_textItems demoHost "/docs/spec.pdf" = Some demoPages
  /\ length demoPages = 2
  /\ ~ Forall (carriesSourcePage (map PdfJs.pageText demoPages))
         (PdfJs.extractPdfChunks demoHost "/docs/spec.pdf").
Proof.
  split; [done |]. split; [done |].
  intros Hall. apply Forall_inv in Hall.
  destruct Hall as (t & _ & Ht & i & Hi & Htext).
  vm_compute in Ht. injection Ht as <-.
  apply (f_equal String.length) in Htext.
  unfold window, Js.slice in Htext. rewrite length_substring in Htext.
  vm_compute in Hi. vm_compute in Htext.
  revert Htext. 
  change (41 = Nat.min (Nat.min (i + 900) 27 - i) (27 - i) -> False). lia.
Qed.

(** ** Chunk identifiers *)

Section Identifiers.

Abbreviation chars := String.list_ascii_of_string.

Lemma chars_app (a b : string) : chars (a +:+ b) = chars a ++ chars b.
Proof.
  induction a as [|ch a IH]; [done |].
  rewrite string_app_cons. simpl. by rewrite IH.
Qed.

Lemma chars_inj (a b : string) : chars a = chars b -> a = b.
Proof.
  intros Heq. rewrite <- (String.string_of_list_ascii_of_string a),
    <- (String.string_of_list_ascii_of_string b). by rewrite Heq.
Qed.

Lemma digits_string_of_uint (d : Decimal.uint) :
  Forall (fun ch => Js.isDigit ch = true) (chars (NilEmpty.string_of_uint d)).
Proof. induction d; simpl; constructor; done. Qed.

Lemma digits_ofNat (n : nat) :
  Forall (fun ch => Js.isDigit ch = true) (chars (Js.ofNat n)).
Proof. apply digits_string_of_uint. Qed.

Lemma ofNat_inj (n m : nat) : Js.ofNat n = Js.ofNat m -> n = m.
Proof.
  unfold Js.ofNat. intros Heq.
  apply (f_equal NilEmpty.uint_of_string) in Heq.
  rewrite !NilEmpty.usu in Heq. injection Heq as Heq.
  apply (f_equal Nat.of_uint) in Heq.
  by rewrite !DecimalNat.Unsigned.of_to in Heq.
Qed.

(** A tail free of the mark [m] is determined by the whole list. *)
Lemma split_at_last_mark (m : ascii) (x1 x2 d1 d2 : list ascii) :
  m ∉ d1 -> m ∉ d2 ->
  x1 ++ m :: d1 = x2 ++ m :: d2 -> x1 = x2 /\ d1 = d2.
Proof.
  intros H1 H2. revert x2; induction x1 as [|a x1 IH]; intros [|b x2] Heq;
    simpl in Heq.
  - by injection Heq as ->.
  - injection Heq as <- ->. exfalso. apply H1.
    apply elem_of_app. right. apply list_elem_of_here.
  - injection Heq as -> <-. exfalso. apply H2.
    apply elem_of_app. right. apply list_elem_of_here.
  - injection Heq as -> Heq. destruct (IH x2 Heq) as [-> ->]. done.
Qed.

Lemma mark_not_digit (m : ascii) (n : nat) :
  Js.isDigit m = false -> m ∉ chars (Js.ofNat n).
Proof.
  intros Hm Hin. pose proof (digits_ofNat n) as Hd.
  rewrite Forall_forall in Hd. specialize (Hd m Hin). congruence.
Qed.

Lemma chars_chunkId (name : string) (p i : nat) :
  chars (chunkId name p i)
  = ((chars name ++ ["-"%char]) ++ "p"%char :: chars (Js.ofNat p))
    ++ "-"%char :: chars (Js.ofNat i).
Proof. unfold chunkId. rewrite !chars_app. simpl. by rewrite <- !app_assoc. Qed.

(** The identifier determines name, page and offset: read from the right,
    the offset is what follows the last ["-"], the page what follows the
    last ["p"] before it. *)
Lemma chunkId_inj (n1 n2 : string) (p1 p2 i1 i2 : nat) :
  chunkId n1 p1 i1 = chunkId n2 p2 i2 -> n1 = n2 /\ p1 = p2 /\ i1 = i2.
Proof.
  intros Heq. apply (f_equal chars) in Heq. rewrite !chars_chunkId in Heq.
  apply split_at_last_mark in Heq as [Heq Hi];
    [| by apply mark_not_digit | by apply mark_not_digit].
  apply split_at_last_mark in Heq as [Heq Hp];
    [| by apply mark_not_digit | by apply mark_not_digit].
  apply app_inv_tail in Heq.
  split; [by apply chars_inj |].
  split; apply ofNat_inj, chars_inj; done.
Qed.

Lemma sliceChunks_ids (absPath name : string) (p : nat) (t : string) :
  NoDup (map id (sliceChunks absPath name p t))
  /\ Forall (fun ch => exists i, id ch = chunkId name p i)
            (sliceChunks absPath name p t).
Proof.
  rewrite sliceChunks_offsets. split.
  - rewrite <- list_fmap_compose.
    apply NoDup_fmap_2_strong; [| apply offsets_NoDup].
    simpl. intros i j _ _ Heq. by apply chunkId_inj in Heq as (_ & _ & ->).
  - apply Forall_forall. intros ch (i & -> & _)%list_elem_of_fmap. by exists i.
Qed.

(** Identifiers stay distinct across a concatenation whose parts carry
    distinct keys in their identifiers. *)
Lemma NoDup_ids_flat_map {A K} (f : A -> list IndexedChunk) (key : A -> K)
    (l : list A) :
  (forall x, NoDup (map id (f x))) ->
  (forall x y c1 c2, c1 ∈ f x -> c2 ∈ f y -> id c1 = id c2 -> key x = key y) ->
  NoDup (map key l) ->
  NoDup (map id (flat_map f l)).
Proof.
  intros Hpart Hkey. induction l as [|x l IH]; simpl; intros Hnd.
  - constructor.
  - apply NoDup_cons in Hnd as [Hx Hnd].
    rewrite map_app. apply NoDup_app. split; [apply Hpart |].
    split; [| by apply IH].
    intros i (c1 & -> & Hc1)%list_elem_of_fmap (c2 & Heq & Hc2)%list_elem_of_fmap.
    apply list_elem_of_In, in_flat_map in Hc2 as (y & Hy & Hc2).
    apply list_elem_of_In in Hy, Hc2.
    apply Hx. rewrite (Hkey x y c1 c2 Hc1 Hc2 Heq).
    by apply list_elem_of_fmap_2.
Qed.

Lemma PdfToText_ids (h : Host) (absPath : string) :
  NoDup (map id (PdfToText.extractPdfChunks h absPath))
  /\ Forall (fun ch => exists p i, id ch = chunkId (path_basename h absPath) p i)
            (PdfToText.extractPdfChunks h absPath).
Proof.
  destruct (Nat.ltb_spec 0 (PdfToText.pageCount h absPath)) as [Hpos|Hzero].
  - rewrite PdfToText_pages_branch by done. split.
    + apply (NoDup_ids_flat_map _ (fun q : nat => q)).
      * intros q. apply sliceChunks_ids.
      * intros q1 q2 c1 c2 Hc1 Hc2 Heq.
        destruct (sliceChunks_ids absPath (path_basename h absPath) q1
                    (PdfToText.extractRange h absPath (Some q1) (Some q1))) as [_ H1].
        destruct (sliceChunks_ids absPath (path_basename h absPath) q2
                    (PdfToText.extractRange h absPath (Some q2) (Some q2))) as [_ H2].
        rewrite Forall_forall in H1, H2.
        destruct (H1 c1 Hc1) as [i1 E1], (H2 c2 Hc2) as [i2 E2].
        rewrite E1, E2 in Heq. by apply chunkId_inj in Heq as (_ & -> & _).
      * rewrite map_id. apply NoDup_seq.
    + apply Forall_forall. intros ch Hin.
      apply list_elem_of_In, in_flat_map in Hin as (q & _ & Hin).
      apply list_elem_of_In in Hin.
      destruct (sliceChunks_ids absPath (path_basename h absPath) q
                  (PdfToText.extractRange h absPath (Some q) (Some q))) as [_ H1].
      rewrite Forall_forall in H1. destruct (H1 ch Hin) as [i E]. by exists q, i.
  - rewrite PdfToText_whole_branch by lia.
    destruct (sliceChunks_ids absPath (path_basename h absPath) 1
                (PdfToText.extractRange h absPath None None)) as [Hnd Hall].
    split; [done |]. eapply Forall_impl; [exact Hall |].
    simpl. intros ch [i E]. by exists 1, i.
Qed.

Lemma PdfJs_ids (h : Host) (absPath : string) :
  NoDup (map id (PdfJs.extractPdfChunks h absPath))
  /\ Forall (fun ch => exists p i, id ch = chunkId (path_basename h absPath) p i)
            (PdfJs.extractPdfChunks h absPath).
Proof.
  destruct (pdfjs_textItems h absPath) as [pages|] eqn:Hread.
  - rewrite (PdfJs_chunks h absPath pages) by done.
    destruct (sliceChunks_ids absPath (path_basename h absPath) 1
                (normalizeWhitespace (PdfJs.fullText pages))) as [Hnd Hall].
    split; [done |]. eapply Forall_impl; [exact Hall |].
    simpl. intros ch [i E]. by exists 1, i.
  - unfold PdfJs.extractPdfChunks. rewrite Hread. split; constructor.
Qed.

Lemma collectChunks_indexedPaths
    (extract : Host -> string -> list IndexedChunk) (fallback : Host -> string)
    (h : Host) :
  collectChunks extract fallback h
  = flat_map (extract h) (indexedPaths fallback h).
Proof.
  unfold collectChunks, indexedPaths.
  induction (if 0 <? length (envPaths h) then envPaths h else [fallback h])
    as [|q qs IH]; simpl; [done |].
  rewrite IH. rewrite filter_cons.
  destruct (fs_existsSync h (if path_isAbsolute h q then q else path_resolve h q))
    eqn:Hex.
  - rewrite decide_True by done. done.
  - rewrite decide_False by done. done.
Qed.

Lemma collectChunks_ids
    (extract : Host -> string -> list IndexedChunk) (fallback : Host -> string)
    (h : Host) :
  (forall absPath,
      NoDup (map id (extract h absPath))
      /\ Forall (fun ch => exists p i, id ch = chunkId (path_basename h absPath) p i)
                (extract h absPath)) ->
  NoDup (map (path_basename h) (indexedPaths fallback h)) ->
  NoDup (map id (collectChunks extract fallback h)).
Proof.
  intros Hdoc Hnames. rewrite collectChunks_indexedPaths.
  apply (NoDup_ids_flat_map _ (path_basename h)); [apply Hdoc | | done].
  intros a1 a2 c1 c2 Hc1 Hc2 Heq.
  destruct (Hdoc a1) as [_ H1], (Hdoc a2) as [_ H2].
  rewrite Forall_forall in H1, H2.
  destruct (H1 c1 Hc1) as (p1 & i1 & E1), (H2 c2 Hc2) as (p2 & i2 & E2).
  rewrite E1, E2 in Heq. by apply chunkId_inj in Heq as (-> & _).
Qed.

End Identifiers.

(** C9, as the code has it.  The chunk identifiers of a built index are
    pairwise distinct whenever the indexed documents (the configured
    locations that exist) have pairwise distinct base names; this holds in
    both revisions. *)
Theorem chunk_ids_distinct (h : Host) :
  (NoDup (map (path_basename h) (indexedPaths PdfToText.fallback h)) ->
   NoDup (map id (chunks (PdfToText.buildIndex h))))
  /\ (NoDup (map (path_basename h) (indexedPaths PdfJs.fallback h)) ->
      NoDup (map id (chunks (PdfJs.buildIndex h)))).
Proof.
  split; intros Hnames; simpl.
  - apply collectChunks_ids; [apply PdfToText_ids | done].
  - apply collectChunks_ids; [apply PdfJs_ids | done].
Qed.

Lemma chunk_ids_distinct_witness :
  NoDup (map id (chunks (PdfToText.buildIndex demoHost))).
Proof.
  apply (proj1 (chunk_ids_distinct demoHost)).
  vm_compute. apply NoDup_singleton.
Defined.

(** C9, as stated, fails: a location configured twice is chunked twice, and
    every identifier of the document then occurs twice in the index. *)
Lemma chunk_ids_repeat_for_repeated_path :
  ~ NoDup (map id (chunks (PdfToText.buildIndex twiceHost)))
  /\ ~ NoDup (map id (chunks (PdfJs.buildIndex twiceHost))).
Proof.
  split; intros Hnd; vm_compute in Hnd.
  - apply NoDup_cons in Hnd as [Hnin _]. apply Hnin.
    apply list_elem_of_further, list_elem_of_here.
  - apply NoDup_cons in Hnd as [Hnin _]. apply Hnin. apply list_elem_of_here.
Qed.

(** ** Document frequency *)

Section DocumentFrequency.

Lemma orElse_zero (v : option nat) : Js.orElse v 0 = default 0 v.
Proof. by destruct v as [[|n]|]. Qed.

Lemma orElse_one (v : option nat) :
  Js.orElse v 1 = if decide (default 0 v = 0) then 1 else default 0 v.
Proof. by destruct v as [[|n]|]. Qed.

Lemma uniqueTerms_from (tokens seen : list string) :
  NoDup seen ->
  NoDup (fold_left (fun seen t => if decide (t ∈ seen) then seen else seen ++ [t])
                   tokens seen)
  /\ forall t,
      t ∈ fold_left (fun seen t => if decide (t ∈ seen) then seen else seen ++ [t])
                    tokens seen
      <-> t ∈ seen \/ t ∈ tokens.
Proof.
  revert seen; induction tokens as [|u tokens IH]; intros seen Hnd; simpl.
  - split; [done |]. intros t. rewrite elem_of_nil. tauto.
  - destruct (decide (u ∈ seen)) as [Hin|Hnin].
    + destruct (IH seen Hnd) as [Hnd' Hiff]. split; [done |].
      intros t. rewrite Hiff, elem_of_cons.
      split; [tauto |]. intros [?|[->|?]]; tauto.
    + assert (Hnd2 : NoDup (seen ++ [u])).
      { apply NoDup_app. split; [done |]. split; [| apply NoDup_singleton].
        intros x Hx ->%list_elem_of_singleton. done. }
      destruct (IH _ Hnd2) as [Hnd' Hiff]. split; [done |].
      intros t. rewrite Hiff, elem_of_app, list_elem_of_singleton, elem_of_cons.
      tauto.
Qed.

Lemma uniqueTerms_NoDup (tokens : list string) : NoDup (uniqueTerms tokens).
Proof. apply uniqueTerms_from. constructor. Qed.

Lemma elem_of_uniqueTerms (tokens : list string) (t : string) :
  t ∈ uniqueTerms tokens <-> t ∈ tokens.
Proof.
  unfold uniqueTerms.
  destruct (uniqueTerms_from tokens [] (NoDup_nil_2)) as [_ Hiff].
  rewrite Hiff, elem_of_nil. tauto.
Qed.

(** One pass over distinct terms adds one to each of them. *)
Lemma count_terms (terms : list string) (m : gmap string nat) (t : string) :
  NoDup terms ->
  default 0 (fold_left (fun m term => <[term := Js.orElse (m !! term) 0 + 1]> m)
                       terms m !! t)
  = default 0 (m !! t) + (if decide (t ∈ terms) then 1 else 0).
Proof.
  revert m; induction terms as [|u terms IH]; intros m Hnd; simpl.
  - destruct (decide (t ∈ [])) as [Hin|_]; [by apply elem_of_nil in Hin | lia].
  - apply NoDup_cons in Hnd as [Hu Hnd]. rewrite IH by done.
    destruct (decide (u = t)) as [->|Hne].
    + rewrite lookup_insert_eq, orElse_zero. simpl.
      destruct (decide (t ∈ terms)) as [?|_]; [done |].
      destruct (decide (t ∈ t :: terms)) as [_|Hnin]; [lia |].
      exfalso. apply Hnin, list_elem_of_here.
    + rewrite lookup_insert_ne by done.
      destruct (decide (t ∈ terms)) as [Hin|Hnin];
        destruct (decide (t ∈ u :: terms)) as [Hin'|Hnin']; try lia.
      * exfalso. by apply Hnin', list_elem_of_further.
      * exfalso. apply elem_of_cons in Hin' as [?|?]; congruence.
Qed.

Lemma countChunk_lookup (m : gmap string nat) (ch : IndexedChunk) (t : string) :
  default 0 (countChunk m ch !! t)
  = default 0 (m !! t) + (if decide (t ∈ tokenize (text ch)) then 1 else 0).
Proof.
  unfold countChunk. rewrite count_terms by apply uniqueTerms_NoDup.
  f_equal.
  destruct (decide (t ∈ tokenize (text ch))) as [Hin|Hnin];
    destruct (decide (t ∈ uniqueTerms (tokenize (text ch)))) as [Hin'|Hnin'];
    try done; exfalso.
  - by apply Hnin', elem_of_uniqueTerms.
  - by apply Hnin, elem_of_uniqueTerms.
Qed.

(** No entry of the table is ever zero. *)
Lemma count_terms_nonzero (terms : list string) (m : gmap string nat) :
  (forall t, m !! t <> Some 0) ->
  forall t, fold_left (fun m term => <[term := Js.orElse (m !! term) 0 + 1]> m)
                      terms m !! t <> Some 0.
Proof.
  revert m; induction terms as [|u terms IH]; intros m Hm; simpl; [done |].
  apply IH. intros t. destruct (decide (u = t)) as [->|Hne].
  - rewrite lookup_insert_eq. intros [=]. lia.
  - by rewrite lookup_insert_ne.
Qed.

Lemma fold_countChunk (cs : list IndexedChunk) (m : gmap string nat) :
  (forall t, m !! t <> Some 0) ->
  forall t,
    fold_left countChunk cs m !! t <> Some 0
    /\ default 0 (fold_left countChunk cs m !! t)
       = default 0 (m !! t) + chunksContaining t cs.
Proof.
  revert m; induction cs as [|ch cs IH]; intros m Hm t; simpl.
  - split; [done |]. unfold chunksContaining. simpl. lia.
  - destruct (IH (countChunk m ch) (count_terms_nonzero _ m Hm) t) as [Hnz Hcount].
    split; [done |]. rewrite Hcount, countChunk_lookup.
    unfold chunksContaining. rewrite filter_cons.
    destruct (decide (t ∈ tokenize (text ch))); simpl; lia.
Qed.

Lemma buildDf_lookup (cs : list IndexedChunk) (t : string) :
  buildDf cs !! t
  = if chunksContaining t cs =? 0 then None else Some (chunksContaining t cs).
Proof.
  unfold buildDf.
  destruct (fold_countChunk cs ∅ (fun u => ltac:(by rewrite lookup_empty)) t)
    as [Hnz Hcount].
  rewrite lookup_empty in Hcount. simpl in Hcount.
  destruct (fold_left countChunk cs ∅ !! t) as [n|]; simpl in Hcount; rewrite <- Hcount.
  - destruct n; [done | done].
  - done.
Qed.

End DocumentFrequency.

(** C7.  After an index build the document-frequency table maps every token
    to exactly the number of chunks whose tokenized text contains it (and has
    no entry for a token that no chunk contains); a token that occurs several
    times in one chunk counts once for that chunk.  Both revisions build the
    table with the same code, [mkIndex]. *)
Theorem df_counts_chunks (allChunks : list IndexedChunk) (t : string) :
  df (mkIndex allChunks) !! t
  = (if chunksContaining t allChunks =? 0 then None
     else Some (chunksContaining t allChunks))
  /\ (forall h, df (PdfToText.buildIndex h) !! t
                = if chunksContaining t (chunks (PdfToText.buildIndex h)) =? 0 then None
                  else Some (chunksContaining t (chunks (PdfToText.buildIndex h))))
  /\ (forall h, df (PdfJs.buildIndex h) !! t
                = if chunksContaining t (chunks (PdfJs.buildIndex h)) =? 0 then None
                  else Some (chunksContaining t (chunks (PdfJs.buildIndex h)))).
Proof.
  split; [apply buildDf_lookup |].
  split; intros h; apply buildDf_lookup.
Qed.

(** ** Scorer *)

Section Scorer.

Lemma termCounts_from (tokens : list string) (m : gmap string nat) (t : string) :
  default 0 (fold_left (fun m u => <[u := Js.orElse (m !! u) 0 + 1]> m) tokens m !! t)
  = default 0 (m !! t) + length (filter (fun u => u = t) tokens).
Proof.
  revert m; induction tokens as [|u tokens IH]; intros m; simpl; [lia |].
  rewrite IH, filter_cons. destruct (decide (u = t)) as [->|Hne].
  - rewrite lookup_insert_eq, orElse_zero. simpl. lia.
  - by rewrite lookup_insert_ne.
Qed.

Lemma tf_occurrences (tokens : list string) (t : string) :
  Js.orElse (termCounts tokens !! t) 0 = length (filter (fun u => u = t) tokens).
Proof.
  unfold termCounts. rewrite orElse_zero, termCounts_from.
  by rewrite lookup_empty.
Qed.

Lemma tf_zero_iff (tokens : list string) (t : string) :
  Js.orElse (termCounts tokens !! t) 0 = 0 <-> t ∉ tokens.
Proof.
  rewrite tf_occurrences. split.
  - intros Hlen Hin. apply length_zero_iff_nil in Hlen.
    assert (Hmem : t ∈ filter (fun u => u = t) tokens)
      by (by apply list_elem_of_filter).
    rewrite Hlen in Hmem. by apply elem_of_nil in Hmem.
  - intros Hnin. rewrite filter_none; [done |].
    apply Forall_forall. by intros u Hu ->.
Qed.

Lemma scoreChunk_fold (counts df : gmap string nat) (total : nat)
    (queryTokens : list string) (acc : R) :
  fold_left
    (fun score qt =>
       let tf := Js.orElse (counts !! qt) 0 in
       if tf =? 0 then score
       else
         let docFreq := Js.orElse (df !! qt) 1 in
         let idf := ln (INR (total + 1) / INR (docFreq + 1)) in
         (score + INR tf * idf)%R)
    queryTokens acc
  = (acc + sumR (map (contribution counts df total) queryTokens))%R.
Proof.
  revert acc; induction queryTokens as [|qt q IH]; intros acc; simpl.
  - lra.
  - rewrite IH. unfold contribution at 2. simpl.
    destruct (Js.orElse (counts !! qt) 0 =? 0); lra.
Qed.

Lemma scoreChunk_sum (queryTokens : list string) (chunk : IndexedChunk)
    (df : gmap string nat) (total : nat) :
  scoreChunk queryTokens chunk df total
  = sumR (map (contribution (termCounts (tokenize (text chunk))) df total)
              queryTokens).
Proof. unfold scoreChunk. rewrite scoreChunk_fold. lra. Qed.

Lemma ratio_ge_1 (a b : nat) :
  b <= a -> (1 <= INR (a + 1) / INR (b + 1))%R.
Proof.
  intros Hle.
  assert (Hb : (0 < INR (b + 1))%R) by (apply lt_0_INR; lia).
  assert (Hab : (INR (b + 1) <= INR (a + 1))%R) by (apply le_INR; lia).
  apply (Rmult_le_reg_r (INR (b + 1))); [done |].
  unfold Rdiv. rewrite Rmult_assoc, Rinv_l by lra. lra.
Qed.

Lemma ratio_gt_1 (a b : nat) :
  b < a -> (1 < INR (a + 1) / INR (b + 1))%R.
Proof.
  intros Hlt.
  assert (Hb : (0 < INR (b + 1))%R) by (apply lt_0_INR; lia).
  assert (Hab : (INR (b + 1) < INR (a + 1))%R) by (apply lt_INR; lia).
  apply (Rmult_lt_reg_r (INR (b + 1))); [done |].
  unfold Rdiv. rewrite Rmult_assoc, Rinv_l by lra. lra.
Qed.

Lemma ln_ge_0 (x : R) : (1 <= x)%R -> (0 <= ln x)%R.
Proof.
  intros [Hlt|<-].
  - left. rewrite <- ln_1. apply ln_increasing; lra.
  - rewrite ln_1. lra.
Qed.

Lemma ln_gt_0 (x : R) : (1 < x)%R -> (0 < ln x)%R.
Proof. intros Hlt. rewrite <- ln_1. apply ln_increasing; lra. Qed.

Lemma contribution_nonneg (counts df : gmap string nat) (total : nat) (qt : string) :
  Js.orElse (df !! qt) 1 <= total ->
  (0 <= contribution counts df total qt)%R.
Proof.
  intros Hle. unfold contribution. simpl.
  destruct (Js.orElse (counts !! qt) 0 =? 0); [lra |].
  apply Rmult_le_pos; [apply pos_INR |].
  by apply ln_ge_0, ratio_ge_1.
Qed.

Lemma contribution_pos (counts df : gmap string nat) (total : nat) (qt : string) :
  Js.orElse (counts !! qt) 0 <> 0 ->
  Js.orElse (df !! qt) 1 < total ->
  (0 < contribution counts df total qt)%R.
Proof.
  intros Htf Hlt. unfold contribution. simpl.
  destruct (Nat.eqb_spec (Js.orElse (counts !! qt) 0) 0) as [|_]; [done |].
  apply Rmult_lt_0_compat; [apply lt_0_INR; lia |].
  by apply ln_gt_0, ratio_gt_1.
Qed.

Lemma contribution_absent (counts df : gmap string nat) (total : nat) (qt : string) :
  Js.orElse (counts !! qt) 0 = 0 -> contribution counts df total qt = 0%R.
Proof. intros Htf. unfold contribution. simpl. by rewrite Htf. Qed.

Lemma sumR_nonneg (xs : list R) :
  Forall (fun x => (0 <= x)%R) xs -> (0 <= sumR xs)%R.
Proof. induction 1 as [|x xs Hx _ IH]; simpl; lra. Qed.

Lemma sumR_zero (xs : list R) :
  Forall (fun x => x = 0%R) xs -> sumR xs = 0%R.
Proof. induction 1 as [|x xs Hx _ IH]; simpl; lra. Qed.

Lemma sumR_pos (xs : list R) (x : R) :
  Forall (fun y => (0 <= y)%R) xs -> x ∈ xs -> (0 < x)%R -> (0 < sumR xs)%R.
Proof.
  induction 1 as [|y xs Hy Hall IH]; intros Hin Hx.
  - by apply elem_of_nil in Hin.
  - simpl. pose proof (sumR_nonneg xs Hall).
    apply elem_of_cons in Hin as [->|Hin]; [lra |].
    specialize (IH Hin Hx). lra.
Qed.

Lemma docFreq_bound (df : gmap string nat) (N : nat) (qt : string) :
  1 <= N -> (forall t d, df !! t = Some d -> 1 <= d <= N) ->
  Js.orElse (df !! qt) 1 <= N.
Proof.
  intros HN Hdf. destruct (df !! qt) as [d|] eqn:Hd; simpl; [| lia].
  specialize (Hdf qt d Hd). destruct d; simpl; lia.
Qed.

Lemma scoreChunk_nonneg (queryTokens : list string) (chunk : IndexedChunk)
    (df : gmap string nat) (N : nat) :
  1 <= N -> (forall t d, df !! t = Some d -> 1 <= d <= N) ->
  (0 <= scoreChunk queryTokens chunk df N)%R.
Proof.
  intros HN Hdf. rewrite scoreChunk_sum. apply sumR_nonneg.
  apply Forall_forall. intros x (qt & -> & _)%list_elem_of_fmap.
  by apply contribution_nonneg, docFreq_bound.
Qed.

Lemma scoreChunk_no_overlap (queryTokens : list string) (chunk : IndexedChunk)
    (df : gmap string nat) (N : nat) :
  (forall qt, qt ∈ queryTokens -> qt ∉ tokenize (text chunk)) ->
  scoreChunk queryTokens chunk df N = 0%R.
Proof.
  intros Hnone. rewrite scoreChunk_sum. apply sumR_zero.
  apply Forall_forall. intros x (qt & -> & Hqt)%list_elem_of_fmap.
  apply contribution_absent, tf_zero_iff. by apply Hnone.
Qed.

Lemma scoreChunk_pos (queryTokens : list string) (chunk : IndexedChunk)
    (df : gmap string nat) (N : nat) (qt : string) (d : nat) :
  1 <= N -> (forall t d, df !! t = Some d -> 1 <= d <= N) ->
  qt ∈ queryTokens -> qt ∈ tokenize (text chunk) ->
  df !! qt = Some d -> d < N ->
  (0 < scoreChunk queryTokens chunk df N)%R.
Proof.
  intros HN Hdf Hq Hin Hd Hlt. rewrite scoreChunk_sum.
  apply (sumR_pos _ (contribution (termCounts (tokenize (text chunk))) df N qt)).
  - apply Forall_forall. intros x (u & -> & _)%list_elem_of_fmap.
    by apply contribution_nonneg, docFreq_bound.
  - by apply list_elem_of_fmap_2.
  - apply contribution_pos.
    + rewrite tf_zero_iff. tauto.
    + rewrite Hd. specialize (Hdf qt d Hd). destruct d; simpl; lia.
Qed.

End Scorer.

(** C2.  For a document-frequency table whose entries lie between 1 and the
    chunk count [N >= 1], the score is never negative; it is exactly 0 when
    the query has no token or none of its tokens occurs in the chunk's
    tokenized text; and it is strictly positive when some query token occurs
    in the chunk and has a document frequency below [N]. *)
Theorem score_sign (queryTokens : list string) (chunk : IndexedChunk)
    (df : gmap string nat) (N : nat) :
  1 <= N ->
  (forall t d, df !! t = Some d -> 1 <= d <= N) ->
  (0 <= scoreChunk queryTokens chunk df N)%R
  /\ scoreChunk [] chunk df N = 0%R
  /\ ((forall qt, qt ∈ queryTokens -> qt ∉ tokenize (text chunk)) ->
      scoreChunk queryTokens chunk df N = 0%R)
  /\ ((exists qt d, qt ∈ queryTokens /\ qt ∈ tokenize (text chunk)
                    /\ df !! qt = Some d /\ d < N) ->
      (0 < scoreChunk queryTokens chunk df N)%R).
Proof.
  intros HN Hdf. split; [by apply scoreChunk_nonneg |].
  split; [done |]. split; [apply scoreChunk_no_overlap |].
  intros (qt & d & Hq & Hin & Hd & Hlt).
  by apply (scoreChunk_pos _ _ _ _ qt d).
Qed.

Lemma score_sign_witness :
  (0 <= scoreChunk ["bins"] demoChunk2 demoDf 2)%R
  /\ scoreChunk [] demoChunk2 demoDf 2 = 0%R
  /\ ((forall qt, qt ∈ ["bins"] -> qt ∉ tokenize (text demoChunk2)) ->
      scoreChunk ["bins"] demoChunk2 demoDf 2 = 0%R)
  /\ ((exists qt d, qt ∈ ["bins"] /\ qt ∈ tokenize (text demoChunk2)
                    /\ demoDf !! qt = Some d /\ d < 2) ->
      (0 < scoreChunk ["bins"] demoChunk2 demoDf 2)%R).
Proof.
  apply (score_sign ["bins"] demoChunk2 demoDf 2); [lia |].
  intros t d Hd. unfold demoDf in Hd.
  apply lookup_singleton_Some in Hd as [_ <-]. lia.
Defined.

(** ** The stable sort *)

Section StableSort.

Context {A : Type} (cmp : A -> A -> R).

Lemma insertBy_perm (x : A) (l : list A) : insertBy cmp x l ≡ₚ x :: l.
Proof.
  induction l as [|y l IH]; simpl; [done |].
  destruct (decide (0 < cmp x y)%R); [| done].
  rewrite IH. apply Permutation_swap.
Qed.

Lemma sortBy_perm (l : list A) : sortBy cmp l ≡ₚ l.
Proof.
  induction l as [|x l IH]; simpl; [done |].
  by rewrite insertBy_perm, IH.
Qed.

(** Nothing moves when no comparison is positive. *)
Lemma sortBy_all_ties (l : list A) :
  (forall x y, x ∈ l -> y ∈ l -> ~ (0 < cmp x y)%R) -> sortBy cmp l = l.
Proof.
  induction l as [|x l IH]; intros Hties; simpl; [done |].
  rewrite IH by (intros; apply Hties; by apply list_elem_of_further).
  destruct l as [|y l]; simpl; [done |].
  destruct (decide (0 < cmp x y)%R) as [Hpos|]; [| done].
  exfalso. apply (Hties x y); [apply list_elem_of_here | | done].
  apply list_elem_of_further, list_elem_of_here.
Qed.



End StableSort.

Section Ranking.

Variable sc : IndexedChunk -> R.





End Ranking.

(** ** Selection *)

Section Selection.

Lemma sliceTo_pos {A} (l : list A) (k : Z) :
  (0 < k)%Z -> Js.sliceTo l k = take (Z.to_nat k) l.
Proof.
  intros Hk. unfold Js.sliceTo.
  destruct (Z.ltb_spec k 0) as [|_]; [lia |].
  destruct (Z.le_gt_cases k (Z.of_nat (length l))) as [Hle|Hgt].
  - by rewrite Z.min_l.
  - rewrite Z.min_r, Nat2Z.id by lia.
    rewrite !take_ge; [done | lia | lia].
Qed.


Lemma buildDf_consistent (cs : list IndexedChunk) (t : string) (d : nat) :
  buildDf cs !! t = Some d -> 1 <= d <= length cs.
Proof.
  rewrite buildDf_lookup.
  destruct (Nat.eqb_spec (chunksContaining t cs) 0) as [|Hnz]; [done |].
  intros [= <-]. split; [lia |]. apply length_filter.
Qed.




Lemma pickChunks_positive (index : IndexState) (query : string) (topK : Z) :
  (0 < topK)%Z ->
  (exists ch, ch ∈ chunks index
              /\ (0 < s (scoredOf index (tokenize query) ch))%R) ->
  pickChunks index query topK
  = take (Z.to_nat topK)
      (filter (fun x => (0 < s x)%R) (scoredAll index (tokenize query))).
Proof.
  intros Hk (ch & Hch & Hpos). unfold pickChunks.
  rewrite sliceTo_pos by done.
  assert (Hin : scoredOf index (tokenize query) ch
                ∈ filter (fun x => (0 < s x)%R) (scoredAll index (tokenize query))).
  { apply list_elem_of_filter. split; [done |].
    unfold scoredAll. rewrite sortBy_perm. by apply list_elem_of_fmap_2. }
  destruct (filter (fun x => (0 < s x)%R) (scoredAll index (tokenize query)))
    as [|x rest]; [by apply elem_of_nil in Hin |].
  destruct (Z.to_nat topK) as [|k] eqn:Hn; [lia |]. done.
Qed.

End Selection.



(** ** Assembly *)

Lemma length_block (ch : IndexedChunk) :
  String.length (block ch)
  = String.length (header ch) + 1 + String.length (normalizeWhitespace (text ch)).
Proof. unfold block. rewrite !length_app_string. simpl. lia. Qed.

Section Assembly.

#[local] Opaque block.

Lemma included_prefix (picked : list IndexedChunk) (B : Z) (used : nat) :
  included picked B used = take (length (included picked B used)) picked.
Proof.
  revert used; induction picked as [|ch rest IH]; intros used; simpl; [done |].
  destruct (Z.of_nat (used + String.length (block ch) + 4) >? B)%Z; simpl; [done |].
  by rewrite <- IH.
Qed.

Lemma budgetCharged_cons (ch : IndexedChunk) (cs : list IndexedChunk) :
  budgetCharged (map segmentOf (ch :: cs))
  = String.length (block ch) + 4 + budgetCharged (map segmentOf cs).
Proof. done. Qed.

Lemma included_within (picked : list IndexedChunk) (B : Z) (used : nat) :
  included picked B used <> [] ->
  (Z.of_nat (used + budgetCharged (map segmentOf (included picked B used))) <= B)%Z.
Proof.
  revert used; induction picked as [|ch rest IH]; intros used; simpl; [done |].
  destruct (Z.gtb_spec (Z.of_nat (used + String.length (block ch) + 4)) B)
    as [Hover|Hfits]; [done |].
  intros _. rewrite budgetCharged_cons.
  destruct (included rest B (used + String.length (block ch) + 4)) as [|ch' inc]
    eqn:Hinc.
  - unfold budgetCharged. simpl. lia.
  - specialize (IH (used + String.length (block ch) + 4)).
    rewrite Hinc in IH. specialize (IH ltac:(done)). lia.
Qed.

Lemma included_stops (picked : list IndexedChunk) (B : Z) (used : nat)
    (ch : IndexedChunk) :
  picked !! length (included picked B used) = Some ch ->
  (B < Z.of_nat (used + budgetCharged (map segmentOf (included picked B used))
                 + String.length (block ch) + 4))%Z.
Proof.
  revert used; induction picked as [|x rest IH]; intros used; simpl; [done |].
  destruct (Z.gtb_spec (Z.of_nat (used + String.length (block x) + 4)) B)
    as [Hover|Hfits]; simpl.
  - intros [= ->]. unfold budgetCharged. simpl. lia.
  - intros Hnext. apply IH in Hnext. lia.
Qed.

Lemma length_join (sep : string) (xs : list string) :
  String.length (Js.join sep xs)
  = sum_list_with String.length xs + String.length sep * (length xs - 1).
Proof.
  induction xs as [|x xs IH]; simpl; [lia |].
  destruct xs as [|y xs]; [simpl; lia |].
  rewrite !length_app_string, IH. simpl. lia.
Qed.

Lemma contentChars_blocks (cs : list IndexedChunk) :
  contentChars (map segmentOf cs) = sum_list_with String.length (map block cs).
Proof. induction cs as [|ch cs IH]; simpl; [done | by rewrite <- IH]. Qed.

Lemma elem_of_sliceTo {A} (l : list A) (k : Z) (x : A) :
  x ∈ Js.sliceTo l k -> x ∈ l.
Proof. unfold Js.sliceTo. apply subseteq_take. Qed.

Lemma pickChunks_from_index (index : IndexState) (query : string) (K : Z)
    (x : Scored) :
  x ∈ pickChunks index query K -> c x ∈ chunks index.
Proof.
  assert (Hall : forall y, y ∈ scoredAll index (tokenize query) ->
                           c y ∈ chunks index).
  { intros y. unfold scoredAll. rewrite sortBy_perm.
    by intros (ch & -> & Hch)%list_elem_of_fmap. }
  unfold pickChunks.
  destruct (length _ =? 0).
  - intros Hin%elem_of_sliceTo. by apply Hall.
  - intros Hin%elem_of_sliceTo. apply list_elem_of_filter in Hin as [_ Hin].
    by apply Hall.
Qed.

(** The shape of every non-none result. *)
Lemma retrieve_some (index : IndexState) (query : string) (B K : Z)
    (r : RetrievedContext) :
  getRelevantContext index query B K = Returns (Some r) ->
  let inc := included (map c (pickChunks index query K)) B 0 in
  inc <> []
  /\ segments r = map segmentOf inc
  /\ ctx_text r = prefix +:+ Js.join separator (map block inc).
Proof.
  unfold getRelevantContext.
  destruct (totalChunks index =? 0); [done |].
  destruct (included (map c (pickChunks index query K)) B 0) as [|ch inc] eqn:Hinc;
    simpl; [done |].
  intros [= <-]. simpl. done.
Qed.

Lemma retrieve_returns (index : IndexState) (query : string) (B K : Z) :
  exists v, getRelevantContext index query B K = Returns v.
Proof.
  unfold getRelevantContext.
  destruct (totalChunks index =? 0); [by eexists |].
  destruct (length _ =? 0); by eexists.
Qed.

End Assembly.

(** C3.  In every non-none result the included blocks are a non-empty
    prefix, in rank order, of the selected chunks; the sum over them of block
    length plus the overhead of 4 is at most [charBudget]; and if a selected
    chunk follows the prefix, its block would have pushed that sum over the
    budget: inclusion stops there, and nothing included earlier is dropped. *)
Theorem assembly_within_budget (index : IndexState) (query : string)
    (charBudget topK : Z) (r : RetrievedContext) :
  getRelevantContext index query charBudget topK = Returns (Some r) ->
  let picked := map c (pickChunks index query topK) in
  exists n,
    1 <= n
    /\ segments r = map segmentOf (take n picked)
    /\ ctx_text r = prefix +:+ Js.join separator (map block (take n picked))
    /\ (Z.of_nat (budgetCharged (segments r)) <= charBudget)%Z
    /\ (forall ch, picked !! n = Some ch ->
          (charBudget
           < Z.of_nat (budgetCharged (segments r) + String.length (block ch) + 4))%Z).
Proof.
  intros Hres picked.
  destruct (retrieve_some _ _ _ _ _ Hres) as (Hne & Hsegs & Htext).
  fold picked in Hne, Hsegs, Htext.
  exists (length (included picked charBudget 0)).
  rewrite <- included_prefix. rewrite Hsegs.
  split; [destruct (included picked charBudget 0); [done | simpl; lia] |].
  split; [done |]. split; [done |]. split.
  - by apply (included_within picked charBudget 0).
  - intros ch Hch. by apply (included_stops picked charBudget 0).
Qed.

(** ** Retrieval as a whole *)

Section Retrieval.

#[local] Opaque block.

Lemma sliceTo_fmap {A B} (f : A -> B) (l : list A) (k : Z) :
  Js.sliceTo (map f l) k = map f (Js.sliceTo l k).
Proof. unfold Js.sliceTo. by rewrite length_fmap, fmap_take. Qed.

Lemma sliceTo_nil {A} (k : Z) : Js.sliceTo (@nil A) k = [].
Proof. unfold Js.sliceTo. apply take_nil. Qed.

Lemma sliceTo_zero {A} (l : list A) : Js.sliceTo l 0 = [].
Proof.
  unfold Js.sliceTo. simpl. rewrite Z.min_l by lia. done.
Qed.

Lemma c_scoredOf (index : IndexState) (qTokens : list string)
    (cs : list IndexedChunk) :
  map c (map (scoredOf index qTokens) cs) = cs.
Proof. induction cs as [|ch cs IH]; simpl; [done | by rewrite IH]. Qed.

(** With every score at zero the selection is the fallback, whatever the
    sign of [topK]. *)
Lemma pickChunks_all_zero (index : IndexState) (query : string) (K : Z) :
  (forall ch, ch ∈ chunks index ->
              s (scoredOf index (tokenize query) ch) = 0%R) ->
  map c (pickChunks index query K) = Js.sliceTo (chunks index) K.
Proof.
  intros Hzero. unfold pickChunks, scoredAll.
  rewrite sortBy_all_ties.
  - rewrite filter_none.
    + rewrite sliceTo_nil. simpl.
      by rewrite sliceTo_fmap, c_scoredOf.
    + apply Forall_forall. intros x (ch & -> & Hch)%list_elem_of_fmap.
      rewrite (Hzero ch Hch). lra.
  - intros x y (cx & -> & Hx)%list_elem_of_fmap (cy & -> & Hy)%list_elem_of_fmap.
    rewrite (Hzero cx Hx), (Hzero cy Hy). lra.
Qed.

Lemma tokenize_empty : tokenize EmptyString = [].
Proof. reflexivity. Qed.

(** The empty query: no chunk is scored above zero, and the result is
    assembled from the first chunks of the index. *)
Lemma retrieve_empty_query (index : IndexState) (B K : Z) :
  getRelevantContext index EmptyString B K
  = if totalChunks index =? 0 then Returns None
    else
      let inc := included (Js.sliceTo (chunks index) K) B 0 in
      if length (map block inc) =? 0 then Returns None
      else Returns (Some {| ctx_text := prefix +:+ Js.join separator (map block inc);
                            segments := map segmentOf inc |}).
Proof.
  unfold getRelevantContext. by rewrite pickChunks_all_zero.
Qed.

Lemma pickChunks_nonempty (index : IndexState) (query : string) (K : Z) :
  chunks index <> [] -> (1 <= K)%Z -> pickChunks index query K <> [].
Proof.
  intros Hne HK. unfold pickChunks.
  destruct (Nat.eqb_spec
              (length (Js.sliceTo
                         (filter (fun x => (0 < s x)%R)
                                 (scoredAll index (tokenize query))) K)) 0)
    as [_|Hlen].
  - rewrite sliceTo_pos by lia. intros Htake.
    apply (f_equal length) in Htake. rewrite length_take in Htake.
    unfold scoredAll in Htake. rewrite sortBy_perm, length_fmap in Htake.
    destruct (chunks index); [done |]. simpl in Htake. lia.
  - intros Hnil. by rewrite Hnil in Hlen.
Qed.

Lemma included_nonpositive_budget (picked : list IndexedChunk) (B : Z) (used : nat) :
  (B <= 0)%Z -> included picked B used = [].
Proof.
  intros HB. destruct picked as [|ch rest]; simpl; [done |].
  destruct (Z.gtb_spec (Z.of_nat (used + String.length (block ch) + 4)) B);
    [done | lia].
Qed.

Lemma pickChunks_zero (index : IndexState) (query : string) :
  pickChunks index query 0 = [].
Proof. unfold pickChunks. by rewrite !sliceTo_zero. Qed.

Lemma retrieve_first_block (index : IndexState) (query : string) (B K : Z) :
  totalChunks index <> 0 ->
  getRelevantContext index query B K = Returns None
  <-> match pickChunks index query K with
      | [] => True
      | x :: _ => (B < Z.of_nat (String.length (block (c x)) + 4))%Z
      end.
Proof.
  intros Htotal. unfold getRelevantContext.
  destruct (Nat.eqb_spec (totalChunks index) 0) as [|_]; [done |].
  destruct (pickChunks index query K) as [|x rest]; simpl; [done |].
  destruct (Z.gtb_spec (Z.of_nat (String.length (block (c x)) + 4)) B)
    as [Hover|Hfits]; simpl.
  - split; [lia | done].
  - split; [done | lia].
Qed.

End Retrieval.

Lemma assembly_within_budget_witness :
  exists n,
    1 <= n
    /\ segments demoResult
       = map segmentOf (take n (map c (pickChunks demoIndexJs EmptyString 8)))
    /\ ctx_text demoResult
       = prefix +:+ Js.join separator
                      (map block (take n (map c (pickChunks demoIndexJs EmptyString 8))))
    /\ (Z.of_nat (budgetCharged (segments demoResult)) <= 60)%Z
    /\ (forall ch, map c (pickChunks demoIndexJs EmptyString 8) !! n = Some ch ->
          (60 < Z.of_nat (budgetCharged (segments demoResult)
                          + String.length (block ch) + 4))%Z).
Proof.
  apply (assembly_within_budget demoIndexJs EmptyString 60%Z 8%Z demoResult).
  rewrite retrieve_empty_query. vm_compute. reflexivity.
Defined.

(** C10.  In every non-none result each segment's [charCount] is the length
    of the chunk's header line, plus one for the line feed, plus the length
    of the chunk's normalized text; the budget bounds the sum of
    [charCount + 4] over the segments; and the text is the 67-character
    prefix followed by the blocks joined with the 7-character separator, so
    its length is 67 plus the block lengths plus 7 for each block but the
    first.  Prefix and separators are not charged: on the demo index a
    budget of 60 yields a text of 123 characters. *)
Theorem text_length_exceeds_budget :
  (forall index query charBudget topK r,
      getRelevantContext index query charBudget topK = Returns (Some r) ->
      Forall (fun sg =>
                exists ch, ch ∈ chunks index
                  /\ seg_docName sg = docName ch /\ seg_page sg = page ch
                  /\ charCount sg
                     = String.length (header ch) + 1
                       + String.length (normalizeWhitespace (text ch)))
             (segments r)
      /\ (Z.of_nat (budgetCharged (segments r)) <= charBudget)%Z
      /\ String.length (ctx_text r)
         = 67 + contentChars (segments r) + 7 * (length (segments r) - 1))
  /\ String.length prefix = 67
  /\ String.length separator = 7
  /\ (exists index query charBudget topK r,
         getRelevantContext index query charBudget topK = Returns (Some r)
         /\ (charBudget < Z.of_nat (String.length (ctx_text r)))%Z).
Proof.
  split; [| split; [done | split; [done |]]].
  - intros index query B K r Hres.
    destruct (retrieve_some _ _ _ _ _ Hres) as (Hne & Hsegs & Htext).
    split; [| split].
    + rewrite Hsegs. apply Forall_forall.
      intros sg (ch & -> & Hch)%list_elem_of_fmap.
      exists ch. split; [| by rewrite <- length_block].
      rewrite included_prefix in Hch. apply subseteq_take in Hch.
      apply list_elem_of_fmap in Hch as (x & -> & Hx).
      by apply pickChunks_from_index in Hx.
    + rewrite Hsegs. by apply (included_within _ B 0).
    + rewrite Htext, Hsegs, length_app_string, length_join, contentChars_blocks.
      by rewrite !length_fmap.
  - exists demoIndexJs, EmptyString, 60%Z, 8%Z, demoResult.
    split; [| by vm_compute].
    rewrite retrieve_empty_query. by vm_compute.
Qed.

Lemma text_length_exceeds_budget_witness :
  Forall (fun sg =>
            exists ch, ch ∈ chunks demoIndexJs
              /\ seg_docName sg = docName ch /\ seg_page sg = page ch
              /\ charCount sg
                 = String.length (header ch) + 1
                   + String.length (normalizeWhitespace (text ch)))
         (segments demoResult)
  /\ (Z.of_nat (budgetCharged (segments demoResult)) <= 60)%Z
  /\ String.length (ctx_text demoResult)
     = 67 + contentChars (segments demoResult) + 7 * (length (segments demoResult) - 1).
Proof.
  apply (proj1 text_length_exceeds_budget demoIndexJs EmptyString 60%Z 8%Z demoResult).
  rewrite retrieve_empty_query. vm_compute. reflexivity.
Defined.

(** C4, as the code has it.  For a positive budget and [topK >= 1] a call
    always returns (it never throws; a query without tokens, the empty one
    among them, takes the fallback), and it returns none exactly when the
    index holds no chunk or the first selected chunk's block, with its
    overhead of 4, exceeds [charBudget]; with a non-empty index the
    selection is never empty. *)
Theorem retrieve_none_cases (allChunks : list IndexedChunk) (query : string)
    (charBudget topK : Z) :
  (0 < charBudget)%Z -> (1 <= topK)%Z ->
  let index := mkIndex allChunks in
  (exists v, getRelevantContext index query charBudget topK = Returns v)
  /\ tokenize EmptyString = []
  /\ (tokenize query = [] ->
      map c (pickChunks index query topK) = take (Z.to_nat topK) allChunks)
  /\ (allChunks <> [] -> pickChunks index query topK <> [])
  /\ (getRelevantContext index query charBudget topK = Returns None
      <-> allChunks = []
          \/ exists x, head (pickChunks index query topK) = Some x
                       /\ (charBudget < Z.of_nat (String.length (block (c x)) + 4))%Z).
Proof.
  intros HB HK index.
  split; [apply retrieve_returns |].
  split; [done |].
  split.
  { intros Hq. rewrite pickChunks_all_zero.
    - by rewrite sliceTo_pos by lia.
    - intros ch _. simpl. by rewrite Hq. }
  split; [intros Hne; by apply pickChunks_nonempty |].
  destruct allChunks as [|ch0 rest] eqn:Hall.
  - split; [by left | done].
  - rewrite retrieve_first_block by done.
    pose proof (pickChunks_nonempty index query topK ltac:(done) HK) as Hpick.
    destruct (pickChunks index query topK) as [|x picks]; [done |]. simpl.
    split.
    + intros Hover. right. by exists x.
    + intros [?|(y & [= <-] & Hover)]; done.
Qed.

Lemma retrieve_none_cases_witness :
  getRelevantContext (mkIndex [demoChunkJs]) EmptyString 40 8 = Returns None
  <-> [demoChunkJs] = []
      \/ exists x, head (pickChunks (mkIndex [demoChunkJs]) EmptyString 8) = Some x
                   /\ (40 < Z.of_nat (String.length (block (c x)) + 4))%Z.
Proof.
  apply (retrieve_none_cases [demoChunkJs] EmptyString 40%Z 8%Z); lia.
Defined.

(** C4, as stated, fails: on the demo index, with a budget of 40, the first
    block in rank order (42 characters) does not fit and the call returns
    none, although the index is not empty and the second chunk's block
    (28 characters, 32 with the overhead) fits on its own. *)
Lemma none_although_a_block_fits :
  getRelevantContext demoIndex EmptyString 40 8 = Returns None
  /\ totalChunks demoIndex = 2
  /\ exists ch, ch ∈ chunks demoIndex
                /\ (Z.of_nat (String.length (block ch) + 4) <= 40)%Z.
Proof.
  split; [| split].
  - rewrite retrieve_empty_query. by vm_compute.
  - by vm_compute.
  - exists demoChunk2.
    split; [| by vm_compute].
    vm_compute. apply list_elem_of_further, list_elem_of_here.
Qed.

(** C5, as the code has it.  The retriever validates nothing and never
    throws: every call returns, and with a non-positive [charBudget], or
    with [topK = 0], it returns none. *)
Theorem invalid_parameters_return_none (index : IndexState) (query : string)
    (charBudget topK : Z) :
  (exists v, getRelevantContext index query charBudget topK = Returns v)
  /\ ((charBudget <= 0)%Z ->
      getRelevantContext index query charBudget topK = Returns None)
  /\ (topK = 0%Z ->
      getRelevantContext index query charBudget topK = Returns None).
Proof.
  split; [apply retrieve_returns |].
  split.
  - intros HB. unfold getRelevantContext.
    destruct (totalChunks index =? 0); [done |].
    by rewrite included_nonpositive_budget.
  - intros ->. unfold getRelevantContext.
    destruct (totalChunks index =? 0); [done |].
    by rewrite pickChunks_zero.
Qed.

Lemma invalid_parameters_return_none_witness :
  getRelevantContext demoIndex "trash bins" (-5) 8 = Returns None.
Proof.
  apply (proj1 (proj2 (invalid_parameters_return_none demoIndex "trash bins" (-5) 8))).
  lia.
Defined.

(** C5, as stated, fails: with a budget of 0, and with [topK = 0], the call
    returns none instead of failing, and with [topK = -1] it even returns a
    result (all but the last of the two candidates). *)
Lemma no_validation_error :
  getRelevantContext demoIndex EmptyString 0 8 = Returns None
  /\ getRelevantContext demoIndex EmptyString 6000 0 = Returns None
  /\ (exists r, getRelevantContext demoIndex EmptyString 6000 (-1) = Returns (Some r)
                /\ length (segments r) = 1)
  /\ ~ (forall index query charBudget topK,
           (charBudget <= 0 \/ topK <= 0)%Z ->
           exists message,
             getRelevantContext index query charBudget topK = Throws message).
Proof.
  assert (H0 : getRelevantContext demoIndex EmptyString 0 8 = Returns None).
  { rewrite retrieve_empty_query. by vm_compute. }
  split; [done |].
  split; [rewrite retrieve_empty_query; by vm_compute |].
  split.
  - eexists. rewrite retrieve_empty_query. vm_compute. split; reflexivity.
  - intros Hclaim.
    destruct (Hclaim demoIndex EmptyString 0%Z 8%Z ltac:(lia)) as [msg Hthrow].
    rewrite H0 in Hthrow. discriminate.
Qed.

(** ** The retriever on the demo indexes *)

(** One document, one chunk: the empty query falls back to that chunk, and a
    budget of 5 holds no block. *)
Example retrieve_single_chunk :
  getRelevantContext demoIndexJs EmptyString 6000 8 = Returns (Some demoResult)
  /\ getRelevantContext demoIndexJs EmptyString 5 8 = Returns None.
Proof. rewrite !retrieve_empty_query. by vm_compute. Qed.

(** A query that matches the second chunk only ranks it first: within a
    budget of 40 its block is returned, where the empty query, which starts
    with the longer first chunk, gets nothing. *)
Example retrieve_ranked_first :
  getRelevantContext demoIndex "bins" 40 8
  = Returns (Some {| ctx_text := prefix +:+ block demoChunk2;
                     segments := [segmentOf demoChunk2] |}).
Proof.
  set (x1 := scoredOf demoIndex ["bins"] demoChunk1).
  set (x2 := scoredOf demoIndex ["bins"] demoChunk2).
  assert (H1 : s x1 = 0%R).
  { apply scoreChunk_no_overlap. intros qt ->%list_elem_of_singleton.
    apply (bool_decide_unpack _). by vm_compute. }
  assert (H2 : (0 < s x2)%R).
  { apply (scoreChunk_pos _ _ _ _ "bins" 1);
      [vm_compute; lia | | | | by vm_compute | vm_compute; lia].
    - intros t d. apply buildDf_consistent.
    - apply list_elem_of_here.
    - apply (bool_decide_unpack _). by vm_compute. }
  assert (Hall : scoredAll demoIndex ["bins"] = [x2; x1]).
  { change (scoredAll demoIndex ["bins"])
      with (insertBy (fun a b => (s b - s a)%R) x1 [x2]).
    unfold insertBy. destruct (decide (0 < s x2 - s x1)%R); [done | lra]. }
  unfold getRelevantContext, pickChunks.
  change (tokenize "bins") with ["bins"]. rewrite Hall.
  rewrite !filter_cons, filter_nil.
  destruct (decide (0 < s x2)%R); [| done].
  destruct (decide (0 < s x1)%R); [lra |].
  change (Js.sliceTo [x2] 8) with [x2].
  change (map c [x2]) with [demoChunk2].
  by vm_compute.
Qed.

(** * Further properties of the module *)

(** ** White-space normalisation *)

Section Normalisation.

Abbreviation toList := String.list_ascii_of_string.
Abbreviation ofList := String.string_of_list_ascii.

Lemma toList_dropWhile (p : ascii -> bool) (s : string) :
  toList (Js.dropWhile p s) = dropWhileL p (toList s).
Proof.
  induction s as [|c s IH]; simpl; [done |].
  destruct (p c); simpl; [done | done].
Qed.

Lemma toList_trimEnd (s : string) :
  toList (trimEnd s) = dropEndL Js.isSpace (toList s).
Proof.
  induction s as [|c s IH]; simpl; [done |].
  rewrite <- IH. destruct (trimEnd s) as [|d r]; simpl; [| done].
  by destruct (Js.isSpace c).
Qed.

Lemma dropWhileL_snoc (p : ascii -> bool) (l : list ascii) (c : ascii) :
  dropWhileL p (l ++ [c])
  = match dropWhileL p l with
    | [] => if p c then [] else [c]
    | r => r ++ [c]
    end.
Proof.
  induction l as [|d l IH]; simpl; [done |].
  destruct (p d); [done | done].
Qed.

Lemma rev_dropWhileL_rev (p : ascii -> bool) (l : list ascii) :
  rev (dropWhileL p (rev l)) = dropEndL p l.
Proof.
  induction l as [|c l IH]; simpl; [done |].
  rewrite dropWhileL_snoc, <- IH.
  destruct (dropWhileL p (rev l)) as [|d r]; simpl.
  - by destruct (p c).
  - rewrite rev_app_distr. simpl.
    destruct (rev r ++ [d]) eqn:E; [| done].
    by apply app_eq_nil in E as [_ ?].
Qed.

Lemma trimEnd_spec (s : string) :
  Js.revString (Js.dropWhile Js.isSpace (Js.revString s)) = trimEnd s.
Proof.
  unfold Js.revString.
  rewrite toList_dropWhile, String.list_ascii_of_string_of_list_ascii.
  rewrite rev_dropWhileL_rev, <- toList_trimEnd.
  apply String.string_of_list_ascii_of_string.
Qed.

Lemma trim_spec (s : string) :
  Js.trim s = trimEnd (Js.dropWhile Js.isSpace s).
Proof. apply trimEnd_spec. Qed.

Lemma squeezed_replace (b : bool) (s : string) :
  squeezedFrom b (Js.replaceSpaceRuns b s) = true.
Proof.
  revert b; induction s as [|c s IH]; intros b; simpl; [done |].
  destruct (Js.isSpace c) eqn:Hc.
  - destruct b; [apply IH |]. simpl. by rewrite IH.
  - simpl. rewrite Hc. apply IH.
Qed.

Lemma squeezed_weaken (b : bool) (s : string) :
  squeezedFrom b s = true -> squeezedFrom false s = true.
Proof.
  destruct s as [|c s]; simpl; [done |].
  destruct (Js.isSpace c); [| done].
  destruct b; simpl; [| done].
  rewrite andb_false_r. done.
Qed.

Lemma squeezed_tail (b : bool) (c : ascii) (s : string) :
  squeezedFrom b (String c s) = true -> squeezedFrom (Js.isSpace c) s = true.
Proof.
  simpl. destruct (Js.isSpace c); [| done].
  by intros [_ ?]%andb_prop.
Qed.

Lemma squeezed_dropWhile (b : bool) (s : string) :
  squeezedFrom b s = true ->
  squeezedFrom true (Js.dropWhile Js.isSpace s) = true.
Proof.
  revert b; induction s as [|c s IH]; intros b Hs; simpl; [done |].
  destruct (Js.isSpace c) eqn:Hc.
  - apply (IH true). apply squeezed_tail in Hs. by rewrite Hc in Hs.
  - simpl. rewrite Hc. apply squeezed_tail in Hs. by rewrite Hc in Hs.
Qed.

Lemma squeezed_cons (b : bool) (c : ascii) (s : string) :
  squeezedFrom b (String c s)
  = (if Js.isSpace c then Ascii.eqb c " " && negb b else true)
    && squeezedFrom (Js.isSpace c) s.
Proof. simpl. by destruct (Js.isSpace c). Qed.

Lemma squeezed_trimEnd (b : bool) (s : string) :
  squeezedFrom b s = true -> squeezedFrom b (trimEnd s) = true.
Proof.
  revert b; induction s as [|c s IH]; intros b Hs; [done |].
  rewrite squeezed_cons in Hs. apply andb_prop in Hs as [Hc Hs].
  specialize (IH _ Hs). cbn [trimEnd].
  destruct (trimEnd s) as [|d r] eqn:E.
  - destruct (Js.isSpace c) eqn:Hsp; [done |].
    by rewrite squeezed_cons, Hsp.
  - by rewrite squeezed_cons, Hc, IH.
Qed.

Lemma lastIsSpace_trimEnd (s : string) : lastIsSpace (trimEnd s) = false.
Proof.
  induction s as [|c s IH]; simpl; [done |].
  destruct (trimEnd s) as [|d r] eqn:E.
  - destruct (Js.isSpace c) eqn:Hc; simpl; [done | done].
  - simpl in *. done.
Qed.

Lemma trimEnd_fixed (s : string) : lastIsSpace s = false -> trimEnd s = s.
Proof.
  induction s as [|c s IH]; simpl; [done |].
  destruct s as [|d s].
  - simpl. by intros ->.
  - intros Hl. rewrite IH by done. done.
Qed.

Lemma dropWhile_fixed (s : string) :
  squeezedFrom true s = true -> Js.dropWhile Js.isSpace s = s.
Proof.
  destruct s as [|c s]; simpl; [done |].
  destruct (Js.isSpace c); [| done].
  rewrite andb_false_r. done.
Qed.

Lemma replace_fixed (b : bool) (s : string) :
  squeezedFrom b s = true -> Js.replaceSpaceRuns b s = s.
Proof.
  revert b; induction s as [|c s IH]; intros b Hs; simpl; [done |].
  pose proof (squeezed_tail _ _ _ Hs) as Htail. simpl in Hs.
  destruct (Js.isSpace c) eqn:Hc.
  - apply andb_prop in Hs as [[Hsp Hb]%andb_prop _].
    destruct b; [done |].
    apply Ascii.eqb_eq in Hsp as ->. by rewrite (IH true).
  - by rewrite (IH false).
Qed.

Lemma length_dropWhile (p : ascii -> bool) (s : string) :
  String.length (Js.dropWhile p s) <= String.length s.
Proof.
  induction s as [|c s IH]; simpl; [done |].
  destruct (p c); simpl; lia.
Qed.

Lemma length_trimEnd (s : string) : String.length (trimEnd s) <= String.length s.
Proof.
  induction s as [|c s IH]; simpl; [done |].
  destruct (trimEnd s); [destruct (Js.isSpace c) |]; simpl in *; lia.
Qed.

Lemma length_replaceSpaceRuns (b : bool) (s : string) :
  String.length (Js.replaceSpaceRuns b s) <= String.length s.
Proof.
  revert b; induction s as [|c s IH]; intros b; simpl; [done |].
  destruct (Js.isSpace c); [destruct b |]; simpl;
    [specialize (IH true) | specialize (IH true) | specialize (IH false)]; lia.
Qed.

Lemma length_trim (s : string) : String.length (Js.trim s) <= String.length s.
Proof.
  rewrite trim_spec.
  pose proof (length_trimEnd (Js.dropWhile Js.isSpace s)).
  pose proof (length_dropWhile Js.isSpace s). lia.
Qed.

Lemma normalizeWhitespace_Normalized (s : string) :
  Normalized (normalizeWhitespace s).
Proof.
  unfold normalizeWhitespace. rewrite trim_spec. split.
  - apply squeezed_trimEnd, (squeezed_dropWhile false), squeezed_replace.
  - apply lastIsSpace_trimEnd.
Qed.

Lemma Normalized_fixed (s : string) : Normalized s -> normalizeWhitespace s = s.
Proof.
  intros [Hsq Hlast]. unfold normalizeWhitespace.
  rewrite (replace_fixed false) by (by apply (squeezed_weaken true)).
  rewrite trim_spec, dropWhile_fixed by done. by apply trimEnd_fixed.
Qed.

Lemma length_normalizeWhitespace (s : string) :
  String.length (normalizeWhitespace s) <= String.length s.
Proof.
  unfold normalizeWhitespace.
  pose proof (length_trim (Js.replaceSpaceRuns false s)).
  pose proof (length_replaceSpaceRuns false s). lia.
Qed.

End Normalisation.

(** X1.  [normalizeWhitespace] yields a normalized text: every white-space
    character in it is a plain space, no two spaces are adjacent, and there
    is none at either end; it never lengthens its input; and it leaves a
    normalized text as it is, so that applying it twice is the same as
    applying it once. *)
Theorem normalizeWhitespace_idempotent (input : string) :
  Normalized (normalizeWhitespace input)
  /\ String.length (normalizeWhitespace input) <= String.length input
  /\ normalizeWhitespace (normalizeWhitespace input) = normalizeWhitespace input.
Proof.
  split; [apply normalizeWhitespace_Normalized |].
  split; [apply length_normalizeWhitespace |].
  apply Normalized_fixed, normalizeWhitespace_Normalized.
Qed.

(** ** Tokenizer *)

Section Tokens.

Lemma string_app_assoc (a b c : string) : (a +:+ b) +:+ c = a +:+ (b +:+ c).
Proof.
  induction a as [|ch a IH]; [done |].
  by rewrite !string_app_cons, IH.
Qed.

Lemma allChars_app (p : ascii -> bool) (a b : string) :
  allChars p (a +:+ b) = allChars p a && allChars p b.
Proof.
  induction a as [|ch a IH]; [done |].
  rewrite string_app_cons. simpl. rewrite IH. by rewrite andb_assoc.
Qed.

Lemma wordChar_not_space (c : ascii) :
  isWordChar c = true -> Js.isSpace c = false.
Proof. destruct c as [[] [] [] [] [] [] [] []]; by vm_compute. Qed.

Lemma kept_chars (c : ascii) :
  Js.isSpace (keepWordChar (Js.lowerChar c)) = false ->
  isWordChar (keepWordChar (Js.lowerChar c)) = true.
Proof. destruct c as [[] [] [] [] [] [] [] []]; by vm_compute. Qed.

Lemma word_or_space_fixed (c : ascii) :
  isWordChar c || Js.isSpace c = true -> keepWordChar (Js.lowerChar c) = c.
Proof. destruct c as [[] [] [] [] [] [] [] []]; by vm_compute. Qed.

(** The pieces of a split hold the characters that are not white space. *)
Lemma splitSpaceRuns_pieces (p : ascii -> bool) (w : string) :
  forall (b : bool) (cur : string),
    allChars p cur = true ->
    allChars (fun c => Js.isSpace c || p c) w = true ->
    Forall (fun piece => allChars p piece = true) (Js.splitSpaceRuns b cur w).
Proof.
  induction w as [|c w IH]; intros b cur Hcur Hw; simpl.
  - by constructor.
  - simpl in Hw. apply andb_prop in Hw as [Hc Hw].
    destruct (Js.isSpace c) eqn:Hsp.
    + destruct b; [by apply IH |]. constructor; [done | by apply IH].
    + apply IH; [| done]. rewrite allChars_app, Hcur. simpl.
      simpl in Hc. by rewrite Hc.
Qed.

Lemma tokenize_source_chars (t : string) :
  allChars (fun c => Js.isSpace c || isWordChar c)
           (Js.mapChars keepWordChar (Js.toLowerCase t)) = true.
Proof.
  unfold Js.toLowerCase.
  induction t as [|c t IH]; simpl; [done |].
  rewrite IH, andb_true_r.
  destruct (Js.isSpace (keepWordChar (Js.lowerChar c))) eqn:Hsp; [done |].
  by apply kept_chars.
Qed.

Lemma mapChars_fixed (s : string) :
  allChars (fun c => isWordChar c || Js.isSpace c) s = true ->
  Js.mapChars keepWordChar (Js.toLowerCase s) = s.
Proof.
  unfold Js.toLowerCase.
  induction s as [|c s IH]; simpl; [done |].
  intros [Hc Hs]%andb_prop. by rewrite word_or_space_fixed, IH.
Qed.

(** Reading a word, then the rest. *)
Lemma splitSpaceRuns_word (w rest cur : string) (b : bool) :
  allChars isWordChar w = true -> w <> EmptyString ->
  Js.splitSpaceRuns b cur (w +:+ rest)
  = Js.splitSpaceRuns false (cur +:+ w) rest.
Proof.
  revert cur b; induction w as [|c w IH]; intros cur b Hw Hne; [done |].
  simpl in Hw. apply andb_prop in Hw as [Hc Hw].
  rewrite string_app_cons. simpl. rewrite (wordChar_not_space c Hc).
  destruct w as [|d w]; [done |].
  rewrite IH by done. rewrite string_app_assoc. by rewrite string_app_cons.
Qed.

Lemma split_join_words (ts : list string) (b : bool) :
  Forall (fun tok => tok <> EmptyString /\ allChars isWordChar tok = true) ts ->
  List.filter Js.truthy (Js.splitSpaceRuns b EmptyString (Js.join " " ts)) = ts.
Proof.
  intros Hts. revert b. induction Hts as [|tok ts [Hne Hw] Hts IH]; intros b.
  - done.
  - destruct ts as [|tok' ts].
    + cbn [Js.join]. rewrite <- (string_app_nil_r tok) at 1.
      rewrite splitSpaceRuns_word by done. simpl.
      destruct tok; [done | done].
    + cbn [Js.join]. rewrite splitSpaceRuns_word by done.
      rewrite string_app_cons. cbn [Js.splitSpaceRuns].
      change (Js.isSpace " ") with true. cbn iota.
      change (EmptyString +:+ Js.join " " (tok' :: ts)) with (Js.join " " (tok' :: ts)).
      cbn [List.filter]. destruct tok as [|c tok]; [done |].
      cbn [Js.truthy String.append]. f_equal. apply (IH true).
Qed.

Lemma join_cons (sep x y : string) (rest : list string) :
  Js.join sep (x :: y :: rest) = x +:+ sep +:+ Js.join sep (y :: rest).
Proof. reflexivity. Qed.

Lemma allChars_join_words (ts : list string) :
  Forall (fun tok => tok <> EmptyString /\ allChars isWordChar tok = true) ts ->
  allChars (fun c => isWordChar c || Js.isSpace c) (Js.join " " ts) = true.
Proof.
  assert (Hmono : forall w, allChars isWordChar w = true ->
            allChars (fun c => isWordChar c || Js.isSpace c) w = true).
  { induction w as [|c w IHw]; simpl; [done |].
    intros [-> Hw]%andb_prop. by rewrite IHw. }
  induction 1 as [|tok ts [Hne Hw] Hts IH]; [done |].
  destruct ts as [|tok' ts]; [by apply Hmono |].
  rewrite join_cons, !allChars_app, Hmono, IH by done. done.
Qed.

Lemma tokenize_words (t : string) :
  Forall (fun tok => tok <> EmptyString /\ allChars isWordChar tok = true)
         (tokenize t).
Proof.
  unfold tokenize.
  pose proof (splitSpaceRuns_pieces isWordChar _ false EmptyString eq_refl
                (tokenize_source_chars t)) as Hpieces.
  induction Hpieces as [|piece pieces Hp _ IH]; simpl; [constructor |].
  destruct piece as [|c piece]; simpl; [done |].
  constructor; [done | done].
Qed.

End Tokens.

(** X2.  Every token that [tokenize] returns is non-empty and made of the
    characters [a-z] and [0-9] only. *)
Theorem tokens_are_words (t tok : string) :
  tok ∈ tokenize t ->
  tok <> EmptyString /\ allChars isWordChar tok = true.
Proof.
  intros Hin. pose proof (tokenize_words t) as Hall.
  rewrite Forall_forall in Hall. by apply Hall.
Qed.

Lemma tokens_are_words_witness :
  "2x" <> EmptyString /\ allChars isWordChar "2x" = true.
Proof.
  apply (tokens_are_words "Trash-bins (2x)" "2x").
  vm_compute. apply list_elem_of_further, list_elem_of_further, list_elem_of_here.
Defined.

(** X3.  Tokenizing is idempotent through re-joining: the tokens of a text,
    joined by single spaces and tokenized again, are the same tokens; more
    generally any list of non-empty [a-z0-9] words joined by spaces
    tokenizes back to that list. *)
Theorem tokenize_join_round_trip (t : string) (ts : list string) :
  tokenize (Js.join " " (tokenize t)) = tokenize t
  /\ (Forall (fun tok => tok <> EmptyString /\ allChars isWordChar tok = true) ts ->
      tokenize (Js.join " " ts) = ts).
Proof.
  assert (Hgen : forall us,
            Forall (fun tok => tok <> EmptyString /\ allChars isWordChar tok = true) us ->
            tokenize (Js.join " " us) = us).
  { intros us Hus. unfold tokenize.
    rewrite mapChars_fixed by (by apply allChars_join_words).
    by apply split_join_words. }
  split; [apply Hgen, tokenize_words | apply Hgen].
Qed.

Lemma tokenize_join_round_trip_witness :
  tokenize (Js.join " " ["trash"; "bins"; "2x"]) = ["trash"; "bins"; "2x"].
Proof.
  apply (proj2 (tokenize_join_round_trip EmptyString ["trash"; "bins"; "2x"])).
  repeat constructor; done.
Defined.

(** ** The chunks of a built index *)

Section BuiltChunks.

Lemma squeezed_suffix (b : bool) (t : string) (n : nat) :
  squeezedFrom b t = true ->
  squeezedFrom false (String.substring n (String.length t - n) t) = true.
Proof.
  revert b n; induction t as [|c t IH]; intros b n Ht.
  - by rewrite substring_nil.
  - destruct n as [|n].
    + rewrite Nat.sub_0_r, substring_all. by apply (squeezed_weaken b).
    + simpl. apply (IH (Js.isSpace c)). by apply squeezed_tail in Ht.
Qed.

Lemma squeezed_prefix (b : bool) (t : string) (m : nat) :
  squeezedFrom b t = true -> squeezedFrom b (String.substring 0 m t) = true.
Proof.
  revert b m; induction t as [|c t IH]; intros b m Ht.
  - by rewrite substring_nil.
  - destruct m as [|m]; [done |].
    rewrite squeezed_cons in Ht. apply andb_prop in Ht as [Hc Ht].
    cbn [String.substring]. by rewrite squeezed_cons, Hc, IH.
Qed.

Lemma substring_skip (t : string) (n m : nat) :
  String.substring n m t
  = String.substring 0 m (String.substring n (String.length t - n) t).
Proof.
  revert n; induction t as [|c t IH]; intros n.
  - by rewrite !substring_nil.
  - destruct n as [|n].
    + by rewrite Nat.sub_0_r, substring_all.
    + simpl. apply IH.
Qed.

Lemma squeezed_substring (b : bool) (t : string) (n m : nat) :
  squeezedFrom b t = true -> squeezedFrom false (String.substring n m t) = true.
Proof.
  intros Ht. rewrite substring_skip.
  by apply squeezed_prefix, (squeezed_suffix b).
Qed.

(** Two adjacent characters of a squeezed text are not both spaces. *)
Lemma squeezed_two_chars (b : bool) (s : string) :
  squeezedFrom b s = true -> 2 <= String.length s ->
  allChars Js.isSpace s = false.
Proof.
  destruct s as [|c [|d s]]; simpl; [lia | lia |]. intros Hs _.
  destruct (Js.isSpace c) eqn:Hc; [| done].
  destruct (Js.isSpace d) eqn:Hd; [| done].
  apply andb_prop in Hs as [_ Hs]. simpl in Hs.
  by rewrite andb_false_r in Hs.
Qed.

(** A non-empty suffix of a text that does not end in a space holds a
    character that is not a space. *)
Lemma suffix_has_word (t : string) (n : nat) :
  lastIsSpace t = false -> n < String.length t ->
  allChars Js.isSpace (String.substring n (String.length t - n) t) = false.
Proof.
  revert n; induction t as [|c t IH]; intros n Hlast Hn; simpl in Hn; [lia |].
  destruct n as [|n].
  - rewrite Nat.sub_0_r, substring_all. clear IH Hn.
    revert c Hlast. induction t as [|d t IHt]; intros c Hlast.
    + simpl in *. by rewrite Hlast.
    + change (lastIsSpace (String d t) = false) in Hlast.
      specialize (IHt d Hlast). cbn [allChars] in *. rewrite IHt.
      apply andb_false_r.
  - cbn [String.length String.substring Nat.sub]. apply IH; [| lia].
    destruct t; [simpl in Hn; lia | done].
Qed.

Lemma window_has_word (t : string) (i : nat) :
  Normalized t -> i < String.length t ->
  allChars Js.isSpace (window t i) = false.
Proof.
  intros [Hsq Hlast] Hi. unfold window, Js.slice.
  destruct (Nat.le_gt_cases (i + targetChunkChars) (String.length t)) as [Hin|Hout].
  - rewrite Nat.min_l by done.
    apply (squeezed_two_chars false).
    + by apply (squeezed_substring true).
    + rewrite length_substring. unfold targetChunkChars in *. lia.
  - rewrite Nat.min_r by lia. by apply suffix_has_word.
Qed.

Lemma offsets_multiples (fuel len i k : nat) :
  (exists j, i = targetChunkChars * j) ->
  k ∈ offsets fuel len i -> exists m, k = targetChunkChars * m.
Proof.
  revert i; induction fuel as [|fuel IH]; intros i [j Hj]; cbn [offsets].
  - by intros ?%elem_of_nil.
  - destruct (i <? len); [| by intros ?%elem_of_nil].
    intros [->|Hin]%elem_of_cons; [by exists j |].
    apply (IH (i + targetChunkChars)); [| done].
    exists (S j). lia.
Qed.

Lemma sliceChunks_wellFormed (h : Host) (paths : list string)
    (absPath : string) (p : nat) (t : string) (ch : IndexedChunk) :
  absPath ∈ paths -> 1 <= p -> Normalized t ->
  ch ∈ sliceChunks absPath (path_basename h absPath) p t ->
  wellFormedChunk h paths ch.
Proof.
  intros Hpath Hp Ht. rewrite sliceChunks_offsets.
  intros (i & -> & Hi)%list_elem_of_fmap.
  pose proof (offsets_bounds _ _ _ _ Hi) as Hbound.
  apply offsets_multiples in Hi as [m ->]; [| exists 0; lia].
  split; [done |]. split; [done |]. split; [done |].
  split; [by exists m |].
  split; [apply chunkAt_length; lia |].
  split.
  - destruct Ht as [Hsq _]. by apply (squeezed_substring true).
  - apply window_has_word; [done | lia].
Qed.

Lemma PdfToText_wellFormed (h : Host) (paths : list string) (absPath : string)
    (ch : IndexedChunk) :
  absPath ∈ paths -> ch ∈ PdfToText.extractPdfChunks h absPath ->
  wellFormedChunk h paths ch.
Proof.
  intros Hpath Hin.
  destruct (Nat.ltb_spec 0 (PdfToText.pageCount h absPath)) as [Hpos|Hzero].
  - rewrite PdfToText_pages_branch in Hin by done.
    apply list_elem_of_In, in_flat_map in Hin as (q & Hq & Hin).
    apply list_elem_of_In, elem_of_seq in Hq. apply list_elem_of_In in Hin.
    eapply sliceChunks_wellFormed; [done | | | exact Hin]; [lia |].
    apply normalizeWhitespace_Normalized.
  - rewrite PdfToText_whole_branch in Hin by lia.
    eapply sliceChunks_wellFormed; [done | | | exact Hin]; [lia |].
    apply normalizeWhitespace_Normalized.
Qed.

Lemma PdfJs_wellFormed (h : Host) (paths : list string) (absPath : string)
    (ch : IndexedChunk) :
  absPath ∈ paths -> ch ∈ PdfJs.extractPdfChunks h absPath ->
  wellFormedChunk h paths ch.
Proof.
  intros Hpath Hin.
  destruct (pdfjs_textItems h absPath) as [pages|] eqn:Hread.
  - rewrite (PdfJs_chunks h absPath pages) in Hin by done.
    eapply sliceChunks_wellFormed; [done | | | exact Hin]; [lia |].
    apply normalizeWhitespace_Normalized.
  - unfold PdfJs.extractPdfChunks in Hin. rewrite Hread in Hin.
    by apply elem_of_nil in Hin.
Qed.

Lemma collectChunks_wellFormed
    (extract : Host -> string -> list IndexedChunk) (fallback : Host -> string)
    (h : Host) (ch : IndexedChunk) :
  (forall absPath ch, absPath ∈ indexedPaths fallback h ->
                      ch ∈ extract h absPath ->
                      wellFormedChunk h (indexedPaths fallback h) ch) ->
  ch ∈ collectChunks extract fallback h ->
  wellFormedChunk h (indexedPaths fallback h) ch.
Proof.
  intros Hdoc. rewrite collectChunks_indexedPaths.
  intros (abs & Habs & Hin)%list_elem_of_In%in_flat_map.
  apply list_elem_of_In in Habs, Hin. by apply (Hdoc abs).
Qed.

Lemma PdfToText_built_wellFormed (h : Host) (ch : IndexedChunk) :
  ch ∈ chunks (PdfToText.buildIndex h) ->
  wellFormedChunk h (indexedPaths PdfToText.fallback h) ch.
Proof.
  intros Hin. simpl in Hin.
  apply (collectChunks_wellFormed PdfToText.extractPdfChunks); [| done].
  intros abs c ? ?. by apply (PdfToText_wellFormed h _ abs).
Qed.

Lemma PdfJs_built_wellFormed (h : Host) (ch : IndexedChunk) :
  ch ∈ chunks (PdfJs.buildIndex h) ->
  wellFormedChunk h (indexedPaths PdfJs.fallback h) ch.
Proof.
  intros Hin. simpl in Hin.
  apply (collectChunks_wellFormed PdfJs.extractPdfChunks); [| done].
  intros abs c ? ?. by apply (PdfJs_wellFormed h _ abs).
Qed.

End BuiltChunks.

(** X4.  Every chunk of a built index, in either revision, belongs to a
    configured location that exists, is named by that location's base name,
    has a page number of at least 1, an identifier made of that name, that
    page and an offset that is a multiple of 900, and a text of 1 to 900
    characters in which white space is squeezed and which is not all white
    space. *)
Theorem built_chunks_wellFormed (h : Host) (ch : IndexedChunk) :
  (ch ∈ chunks (PdfToText.buildIndex h) ->
   wellFormedChunk h (indexedPaths PdfToText.fallback h) ch)
  /\ (ch ∈ chunks (PdfJs.buildIndex h) ->
      wellFormedChunk h (indexedPaths PdfJs.fallback h) ch).
Proof.
  split; [apply PdfToText_built_wellFormed | apply PdfJs_built_wellFormed].
Qed.

Lemma built_chunks_wellFormed_witness :
  wellFormedChunk demoHost (indexedPaths PdfToText.fallback demoHost) demoChunk2.
Proof.
  apply (proj1 (built_chunks_wellFormed demoHost demoChunk2)).
  vm_compute. apply list_elem_of_further, list_elem_of_here.
Defined.

(** ** Blocks of built chunks *)

Section Blocks.

Lemma dropWhile_has_word (s : string) :
  allChars Js.isSpace s = false ->
  exists c r, Js.dropWhile Js.isSpace s = String c r /\ Js.isSpace c = false.
Proof.
  induction s as [|c s IH]; simpl; [done |].
  destruct (Js.isSpace c) eqn:Hc; simpl; [apply IH |].
  intros _. by exists c, s.
Qed.

Lemma trimEnd_keeps_word (c : ascii) (r : string) :
  Js.isSpace c = false -> trimEnd (String c r) <> EmptyString.
Proof.
  intros Hc. cbn [trimEnd]. destruct (trimEnd r); [by rewrite Hc | done].
Qed.

Lemma length_dropWhile_squeezed (b : bool) (s : string) :
  squeezedFrom b s = true ->
  String.length s - 1 <= String.length (Js.dropWhile Js.isSpace s).
Proof.
  destruct s as [|c s]; [done |]. intros Hs.
  cbn [Js.dropWhile]. destruct (Js.isSpace c) eqn:Hc; [| lia].
  apply squeezed_tail in Hs. rewrite Hc in Hs.
  rewrite dropWhile_fixed by done. simpl. lia.
Qed.

Lemma trimEnd_empty_squeezed (b : bool) (s : string) :
  squeezedFrom b s = true -> trimEnd s = EmptyString ->
  String.length s <= 1 /\ (b = true -> s = EmptyString).
Proof.
  destruct s as [|c s]; [by intros; simpl; split; [lia |] |].
  intros Hs. cbn [trimEnd].
  destruct (trimEnd s) as [|d r] eqn:E; [| done].
  destruct (Js.isSpace c) eqn:Hc; [| done]. intros _.
  rewrite squeezed_cons, Hc in Hs. apply andb_prop in Hs as [Hb Hs].
  assert (Hnil : s = EmptyString).
  { destruct s as [|d s]; [done |]. exfalso.
    cbn [trimEnd] in E. destruct (trimEnd s); [| done].
    destruct (Js.isSpace d) eqn:Hd; [| done].
    rewrite squeezed_cons, Hd in Hs. simpl in Hs.
    by rewrite andb_false_r in Hs. }
  subst s. split; [simpl; lia |].
  intros ->. by rewrite andb_false_r in Hb.
Qed.

Lemma length_trimEnd_squeezed (b : bool) (s : string) :
  squeezedFrom b s = true ->
  String.length s - 1 <= String.length (trimEnd s).
Proof.
  revert b; induction s as [|c s IH]; intros b Hs; [done |].
  pose proof (squeezed_tail _ _ _ Hs) as Htail.
  specialize (IH _ Htail). cbn [trimEnd].
  destruct (trimEnd s) as [|d r] eqn:E.
  - destruct (trimEnd_empty_squeezed _ _ Htail E) as [Hlen Hnil].
    destruct (Js.isSpace c) eqn:Hc.
    + rewrite (Hnil eq_refl). simpl. lia.
    + simpl. lia.
  - simpl in *. lia.
Qed.

Lemma wellFormed_body (h : Host) (paths : list string) (ch : IndexedChunk) :
  wellFormedChunk h paths ch ->
  normalizeWhitespace (text ch) = Js.trim (text ch)
  /\ normalizeWhitespace (text ch) <> EmptyString
  /\ String.length (text ch) - 2 <= String.length (normalizeWhitespace (text ch))
  /\ String.length (normalizeWhitespace (text ch)) <= String.length (text ch).
Proof.
  intros (_ & _ & _ & _ & _ & Hsq & Hword).
  assert (Heq : normalizeWhitespace (text ch) = Js.trim (text ch)).
  { unfold normalizeWhitespace. by rewrite (replace_fixed false). }
  split; [done |]. rewrite Heq, trim_spec. split; [| split].
  - destruct (dropWhile_has_word _ Hword) as (c & r & -> & Hc).
    by apply trimEnd_keeps_word.
  - pose proof (length_dropWhile_squeezed _ _ Hsq).
    pose proof (length_trimEnd_squeezed true _ (squeezed_dropWhile _ _ Hsq)). lia.
  - rewrite <- trim_spec. apply length_trim.
Qed.

End Blocks.

(** X5.  For every chunk of a built index the text shown in its block, the
    chunk text normalized once more, is the chunk text with the space at
    either end trimmed: it is never empty and at most two characters shorter
    than the chunk text, so a block is at most the header plus 901
    characters long. *)
Theorem built_block_bodies (h : Host) (ch : IndexedChunk) :
  ch ∈ chunks (PdfToText.buildIndex h) \/ ch ∈ chunks (PdfJs.buildIndex h) ->
  normalizeWhitespace (text ch) = Js.trim (text ch)
  /\ normalizeWhitespace (text ch) <> EmptyString
  /\ String.length (text ch) - 2 <= String.length (normalizeWhitespace (text ch))
  /\ String.length (normalizeWhitespace (text ch)) <= String.length (text ch)
  /\ String.length (header ch) + 2 <= String.length (block ch)
     <= String.length (header ch) + 901.
Proof.
  intros Hin.
  assert (Hwf : exists paths, wellFormedChunk h paths ch).
  { destruct Hin as [Hin|Hin].
    - eexists. by apply PdfToText_built_wellFormed.
    - eexists. by apply PdfJs_built_wellFormed. }
  destruct Hwf as [paths Hwf].
  destruct (wellFormed_body _ _ _ Hwf) as (Heq & Hne & Hlo & Hhi).
  repeat (split; [done |]).
  rewrite length_block.
  destruct Hwf as (_ & _ & _ & _ & Hlen & _). unfold targetChunkChars in Hlen.
  destruct (normalizeWhitespace (text ch)); [done |]. simpl in *. lia.
Qed.

Lemma built_block_bodies_witness :
  normalizeWhitespace (text demoChunk2) = Js.trim (text demoChunk2)
  /\ normalizeWhitespace (text demoChunk2) <> EmptyString
  /\ String.length (text demoChunk2) - 2
     <= String.length (normalizeWhitespace (text demoChunk2))
  /\ String.length (normalizeWhitespace (text demoChunk2))
     <= String.length (text demoChunk2)
  /\ String.length (header demoChunk2) + 2 <= String.length (block demoChunk2)
     <= String.length (header demoChunk2) + 901.
Proof.
  apply (built_block_bodies demoHost demoChunk2).
  left. vm_compute. apply list_elem_of_further, list_elem_of_here.
Defined.

(** ** More on scores *)

Section ScoreFacts.


Lemma contribution_formula (tokens : list string) (df : gmap string nat)
    (N : nat) (qt : string) :
  contribution (termCounts tokens) df N qt
  = (INR (occurrences qt tokens)
     * ln (INR (N + 1) / INR (Js.orElse (df !! qt) 1 + 1)))%R.
Proof.
  unfold contribution, occurrences. simpl. rewrite tf_occurrences.
  destruct (Nat.eqb_spec (length (filter (fun u => u = qt) tokens)) 0) as [->|_];
    [| done].
  simpl. lra.
Qed.

Lemma contribution_everywhere (tokens : list string)
    (allChunks : list IndexedChunk) (qt : string) :
  0 < length allChunks ->
  chunksContaining qt allChunks = length allChunks ->
  contribution (termCounts tokens) (buildDf allChunks) (length allChunks) qt = 0%R.
Proof.
  intros Hpos Hall. rewrite contribution_formula, buildDf_lookup, Hall.
  destruct (length allChunks) as [|n] eqn:E; [lia |].
  simpl Nat.eqb. cbn iota. cbn [Js.orElse].
  rewrite Rdiv_diag, ln_1; [lra |].
  apply not_0_INR. lia.
Qed.

Lemma all_zero_as_empty_query (index : IndexState) (query : string) (B K : Z) :
  (forall ch, ch ∈ chunks index ->
              s (scoredOf index (tokenize query) ch) = 0%R) ->
  getRelevantContext index query B K = getRelevantContext index EmptyString B K.
Proof.
  intros Hzero. unfold getRelevantContext.
  rewrite (pickChunks_all_zero index query) by done.
  by rewrite (pickChunks_all_zero index EmptyString).
Qed.

End ScoreFacts.


(** X7.  On a built index a query token that occurs in every chunk adds
    nothing to any score.  So a query each of whose tokens occurs in every
    chunk or in none of them, and any query at all on an index of one
    chunk, retrieves exactly what the empty query retrieves. *)
Theorem ubiquitous_tokens_score_zero (allChunks : list IndexedChunk)
    (query : string) (charBudget topK : Z) :
  (forall qt, qt ∈ tokenize query ->
              chunksContaining qt allChunks = 0
              \/ chunksContaining qt allChunks = length allChunks) ->
  (forall ch, ch ∈ allChunks ->
     scoreChunk (tokenize query) ch (df (mkIndex allChunks))
                (totalChunks (mkIndex allChunks)) = 0%R)
  /\ getRelevantContext (mkIndex allChunks) query charBudget topK
     = getRelevantContext (mkIndex allChunks) EmptyString charBudget topK.
Proof.
  intros Hq.
  assert (Hzero : forall ch, ch ∈ allChunks ->
            scoreChunk (tokenize query) ch (df (mkIndex allChunks))
                       (totalChunks (mkIndex allChunks)) = 0%R).
  { intros ch Hch. rewrite scoreChunk_sum. apply sumR_zero.
    apply Forall_forall. intros x (qt & -> & Hqt)%list_elem_of_fmap.
    destruct (Hq qt Hqt) as [Hnone|Hall].
    - apply contribution_absent, tf_zero_iff. intros Hin.
      unfold chunksContaining in Hnone. apply length_zero_iff_nil in Hnone.
      assert (Hmem : ch ∈ filter (fun c0 => qt ∈ tokenize (text c0)) allChunks)
        by (by apply list_elem_of_filter).
      rewrite Hnone in Hmem. by apply elem_of_nil in Hmem.
    - apply contribution_everywhere; [| done].
      destruct allChunks; [by apply elem_of_nil in Hch | simpl; lia]. }
  split; [done |]. by apply all_zero_as_empty_query.
Qed.

Lemma ubiquitous_tokens_score_zero_witness :
  getRelevantContext (mkIndex [demoChunkJs]) "clean floors" 6000 8
  = getRelevantContext (mkIndex [demoChunkJs]) EmptyString 6000 8.
Proof.
  apply (ubiquitous_tokens_score_zero [demoChunkJs] "clean floors" 6000 8).
  intros qt Hqt. vm_compute in Hqt.
  apply elem_of_cons in Hqt as [->|Hqt]; [left; by vm_compute |].
  apply list_elem_of_singleton in Hqt as ->. right. by vm_compute.
Defined.

(** ** More on retrieval *)

Section RetrievalFacts.

#[local] Opaque block.

Lemma length_sliceTo_le {A} (l : list A) (k : Z) :
  length (Js.sliceTo l k) <= length l
  /\ ((0 <= k)%Z -> length (Js.sliceTo l k) <= Z.to_nat k).
Proof.
  unfold Js.sliceTo. rewrite length_take. split; [lia |].
  intros Hk. destruct (Z.ltb_spec k 0); lia.
Qed.

Lemma length_pickChunks (index : IndexState) (query : string) (K : Z) :
  length (pickChunks index query K) <= length (chunks index)
  /\ ((0 <= K)%Z -> length (pickChunks index query K) <= Z.to_nat K).
Proof.
  assert (Hall : length (scoredAll index (tokenize query)) = length (chunks index)).
  { unfold scoredAll. by rewrite sortBy_perm, length_fmap. }
  unfold pickChunks.
  destruct (length _ =? 0).
  - rewrite <- Hall. apply length_sliceTo_le.
  - pose proof (length_sliceTo_le
                  (filter (fun x => (0 < s x)%R) (scoredAll index (tokenize query))) K)
      as [Hlen HK].
    pose proof (length_filter (fun x => (0 < s x)%R)
                  (scoredAll index (tokenize query))) as Hfil.
    split; [lia | done].
Qed.

Lemma length_included (picked : list IndexedChunk) (B : Z) (used : nat) :
  length (included picked B used) <= length picked.
Proof.
  rewrite (included_prefix picked B used) at 1. rewrite length_take. lia.
Qed.

Lemma included_monotone (picked : list IndexedChunk) (B B' : Z) (used : nat) :
  (B <= B')%Z -> included picked B used `prefix_of` included picked B' used.
Proof.
  intros HB. revert used. induction picked as [|ch rest IH]; intros used; simpl.
  - done.
  - destruct (Z.gtb_spec (Z.of_nat (used + String.length (block ch) + 4)) B)
      as [Hover|Hfits].
    + apply prefix_nil.
    + destruct (Z.gtb_spec (Z.of_nat (used + String.length (block ch) + 4)) B')
        as [Hover'|_]; [lia |].
      apply prefix_cons, IH.
Qed.

Lemma pickChunks_positive_only (index : IndexState) (query : string) (K : Z) :
  (1 <= K)%Z ->
  (exists ch, ch ∈ chunks index
              /\ (0 < s (scoredOf index (tokenize query) ch))%R) ->
  Forall (fun x => (0 < s x)%R) (pickChunks index query K).
Proof.
  intros HK Hpos. rewrite pickChunks_positive by (done || lia).
  apply Forall_forall. intros x Hx%subseteq_take.
  by apply list_elem_of_filter in Hx as [? _].
Qed.

Lemma pickChunks_scored (index : IndexState) (query : string) (K : Z) (x : Scored) :
  x ∈ pickChunks index query K ->
  x = scoredOf index (tokenize query) (c x).
Proof.
  assert (Hall : forall y, y ∈ scoredAll index (tokenize query) ->
                           y = scoredOf index (tokenize query) (c y)).
  { intros y. unfold scoredAll. rewrite sortBy_perm.
    by intros (ch & -> & Hch)%list_elem_of_fmap. }
  unfold pickChunks. destruct (length _ =? 0).
  - intros Hin%elem_of_sliceTo. by apply Hall.
  - intros Hin%elem_of_sliceTo. apply list_elem_of_filter in Hin as [_ Hin].
    by apply Hall.
Qed.

End RetrievalFacts.

(** X8.  When some chunk of the index scores above zero and [topK >= 1],
    every selected chunk scores above zero and shares a token with the
    query: chunks without a match are never mixed into a result that has
    matches. *)
Theorem matches_exclude_non_matches (index : IndexState) (query : string)
    (topK : Z) (x : Scored) :
  (1 <= topK)%Z ->
  (exists ch, ch ∈ chunks index
     /\ (0 < scoreChunk (tokenize query) ch (df index) (totalChunks index))%R) ->
  x ∈ pickChunks index query topK ->
  (0 < scoreChunk (tokenize query) (c x) (df index) (totalChunks index))%R
  /\ exists qt, qt ∈ tokenize query /\ qt ∈ tokenize (text (c x)).
Proof.
  intros HK Hpos Hx.
  pose proof (pickChunks_positive_only index query topK HK Hpos) as Hall.
  rewrite Forall_forall in Hall. specialize (Hall x Hx).
  rewrite (pickChunks_scored _ _ _ _ Hx) in Hall. simpl in Hall.
  split; [done |].
  destruct (decide (Exists (fun qt => qt ∈ tokenize (text (c x))) (tokenize query)))
    as [Hex|Hnex].
  - apply Exists_exists in Hex as (qt & ? & ?). by exists qt.
  - exfalso. rewrite scoreChunk_no_overlap in Hall; [lra |].
    intros qt Hqt Hin. apply Hnex, Exists_exists. by exists qt.
Qed.

(** X9.  A result never has more segments than [topK] (for [topK >= 0]) nor
    than the index has chunks, and it has at least one. *)
Theorem segments_at_most_topK (index : IndexState) (query : string)
    (charBudget topK : Z) (r : RetrievedContext) :
  getRelevantContext index query charBudget topK = Returns (Some r) ->
  1 <= length (segments r) <= length (chunks index)
  /\ ((0 <= topK)%Z -> length (segments r) <= Z.to_nat topK).
Proof.
  intros Hres.
  destruct (retrieve_some _ _ _ _ _ Hres) as (Hne & Hsegs & _).
  rewrite Hsegs, length_fmap.
  pose proof (length_included (map c (pickChunks index query topK)) charBudget 0)
    as Hinc.
  rewrite length_fmap in Hinc.
  destruct (length_pickChunks index query topK) as [Hlen HK].
  split; [split |].
  - destruct (included _ _ _); [done | simpl; lia].
  - lia.
  - intros H0. specialize (HK H0). lia.
Qed.

(** X10.  Raising the budget never loses context: when a call returns a
    result within [charBudget], the same call with a larger budget returns
    a result whose segments start with the segments of the first. *)
Theorem larger_budget_extends (index : IndexState) (query : string)
    (charBudget charBudget' topK : Z) (r : RetrievedContext) :
  (charBudget <= charBudget')%Z ->
  getRelevantContext index query charBudget topK = Returns (Some r) ->
  exists r', getRelevantContext index query charBudget' topK = Returns (Some r')
             /\ segments r `prefix_of` segments r'.
Proof.
  intros HB Hres.
  destruct (retrieve_some _ _ _ _ _ Hres) as (Hne & Hsegs & _).
  pose proof (included_monotone (map c (pickChunks index query topK))
                charBudget charBudget' 0 HB) as [more Hmore].
  unfold getRelevantContext in *.
  destruct (totalChunks index =? 0); [done |].
  rewrite Hmore.
  destruct (included (map c (pickChunks index query topK)) charBudget 0)
    as [|ch inc] eqn:Hinc; [done |].
  simpl. eexists. split; [done |]. simpl.
  rewrite Hsegs. simpl. rewrite map_app. by eexists.
Qed.

Lemma demo_scores_bins :
  s (scoredOf demoIndex ["bins"] demoChunk1) = 0%R
  /\ (0 < s (scoredOf demoIndex ["bins"] demoChunk2))%R.
Proof.
  split.
  - apply scoreChunk_no_overlap. intros qt ->%list_elem_of_singleton.
    apply (bool_decide_unpack _). by vm_compute.
  - apply (scoreChunk_pos _ _ _ _ "bins" 1);
      [vm_compute; lia | | | | by vm_compute | vm_compute; lia].
    + intros t d. apply buildDf_consistent.
    + apply list_elem_of_here.
    + apply (bool_decide_unpack _). by vm_compute.
Qed.

Lemma demo_picks_bins :
  pickChunks demoIndex "bins" 8 = [scoredOf demoIndex ["bins"] demoChunk2].
Proof.
  destruct demo_scores_bins as [H1 H2].
  set (x1 := scoredOf demoIndex ["bins"] demoChunk1) in *.
  set (x2 := scoredOf demoIndex ["bins"] demoChunk2) in *.
  assert (Hall : scoredAll demoIndex ["bins"] = [x2; x1]).
  { change (scoredAll demoIndex ["bins"])
      with (insertBy (fun a b => (s b - s a)%R) x1 [x2]).
    unfold insertBy. destruct (decide (0 < s x2 - s x1)%R); [done | lra]. }
  unfold pickChunks. change (tokenize "bins") with ["bins"]. rewrite Hall.
  rewrite !filter_cons, filter_nil.
  destruct (decide (0 < s x2)%R); [| done].
  destruct (decide (0 < s x1)%R); [lra |].
  done.
Qed.

Lemma matches_exclude_non_matches_witness :
  (0 < scoreChunk (tokenize "bins") demoChunk2 (df demoIndex)
                  (totalChunks demoIndex))%R
  /\ exists qt, qt ∈ tokenize "bins" /\ qt ∈ tokenize (text demoChunk2).
Proof.
  apply (matches_exclude_non_matches demoIndex "bins" 8
           (scoredOf demoIndex ["bins"] demoChunk2)).
  - lia.
  - exists demoChunk2. split; [| apply demo_scores_bins].
    apply list_elem_of_further, list_elem_of_here.
  - rewrite demo_picks_bins. apply list_elem_of_here.
Defined.

Lemma segments_at_most_topK_witness :
  1 <= length (segments demoResult) <= length (chunks demoIndexJs)
  /\ ((0 <= 8)%Z -> length (segments demoResult) <= Z.to_nat 8).
Proof.
  apply (segments_at_most_topK demoIndexJs EmptyString 60 8 demoResult).
  rewrite retrieve_empty_query. vm_compute. reflexivity.
Defined.

Lemma larger_budget_extends_witness :
  exists r', getRelevantContext demoIndexJs EmptyString 6000 8 = Returns (Some r')
             /\ segments demoResult `prefix_of` segments r'.
Proof.
  apply (larger_budget_extends demoIndexJs EmptyString 60 6000 8 demoResult).
  - lia.
  - rewrite retrieve_empty_query. vm_compute. reflexivity.
Defined.

(** ** The request handler's call *)

Section Route.

#[local] Opaque block.

Lemma first_block_fits (index : IndexState) (query : string) (B K : Z) :
  chunks index <> [] -> totalChunks index <> 0 -> (1 <= K)%Z ->
  (forall ch, ch ∈ chunks index ->
              (Z.of_nat (String.length (block ch) + 4) <= B)%Z) ->
  exists r, getRelevantContext index query B K = Returns (Some r).
Proof.
  intros Hne Htotal HK Hfit.
  destruct (getRelevantContext index query B K) as [[r|]|msg] eqn:Hres.
  - by exists r.
  - exfalso. apply retrieve_first_block in Hres; [| done].
    pose proof (pickChunks_nonempty index query K Hne HK) as Hpick.
    destruct (pickChunks index query K) as [|x picks] eqn:E; [done |].
    assert (Hx : x ∈ pickChunks index query K) by (rewrite E; apply list_elem_of_here).
    apply pickChunks_from_index in Hx. specialize (Hfit _ Hx). lia.
  - exfalso. destruct (retrieve_returns index query B K) as [v Hv]. congruence.
Qed.

Lemma route_context (index : IndexState) (prompt : string) :
  chunks index <> [] -> totalChunks index <> 0 ->
  (forall ch, ch ∈ chunks index ->
              (Z.of_nat (String.length (header ch)) <= 5095)%Z
              /\ String.length (normalizeWhitespace (text ch)) <= 900) ->
  exists r,
    retrieved index prompt = Returns (Some r)
    /\ systemPrefix index prompt = Some (ctx_text r +:+ answerHint)
    /\ contextMeta index prompt = segments r
    /\ 1 <= length (contextMeta index prompt) <= 8
    /\ (Z.of_nat (budgetCharged (contextMeta index prompt)) <= 6000)%Z.
Proof.
  intros Hne Htotal Hshort.
  destruct (first_block_fits index prompt 6000 8 Hne Htotal ltac:(lia)) as [r Hres].
  { intros ch Hch. destruct (Hshort ch Hch). rewrite length_block. lia. }
  exists r. unfold systemPrefix, contextMeta, retrieved. rewrite Hres.
  split; [done |].
  destruct (retrieve_some _ _ _ _ _ Hres) as (Hinc & Hsegs & Htext).
  split.
  { rewrite Htext at 1. done. }
  split; [done |].
  assert (Hlen : length (included (map c (pickChunks index prompt 8)) 6000 0) <= 8).
  { pose proof (length_included (map c (pickChunks index prompt 8)) 6000 0) as H1.
    rewrite length_fmap in H1.
    destruct (length_pickChunks index prompt 8) as [_ H2].
    specialize (H2 ltac:(lia)). simpl in H2. lia. }
  rewrite Hsegs, length_fmap. split.
  - split; [| done].
    destruct (included (map c (pickChunks index prompt 8)) 6000 0); [done | simpl; lia].
  - by pose proof (included_within _ 6000 0 Hinc).
Qed.

End Route.

(** X11.  The request handler retrieves with a budget of 6000 and
    [topK = 8].  On a built index that holds a chunk, in either revision,
    and whose headers are at most 5095 characters long, that call always
    returns context: the system prefix is present, and the context metadata
    lists between 1 and 8 segments that charge at most 6000 characters. *)
Theorem route_always_has_context (h : Host) (index : IndexState) (prompt : string) :
  index = PdfToText.buildIndex h \/ index = PdfJs.buildIndex h ->
  chunks index <> [] ->
  (forall ch, ch ∈ chunks index -> (Z.of_nat (String.length (header ch)) <= 5095)%Z) ->
  exists r,
    retrieved index prompt = Returns (Some r)
    /\ systemPrefix index prompt = Some (ctx_text r +:+ answerHint)
    /\ contextMeta index prompt = segments r
    /\ 1 <= length (contextMeta index prompt) <= 8
    /\ (Z.of_nat (budgetCharged (contextMeta index prompt)) <= 6000)%Z.
Proof.
  intros Hbuilt Hne Hhead. apply route_context; [done | |].
  - destruct Hbuilt as [-> | ->]; simpl in *;
      intros Hz; apply length_zero_iff_nil in Hz; done.
  - intros ch Hch. split; [by apply Hhead |].
    assert (Hwf : exists paths, wellFormedChunk h paths ch).
    { destruct Hbuilt as [-> | ->].
      - eexists. by apply PdfToText_built_wellFormed.
      - eexists. by apply PdfJs_built_wellFormed. }
    destruct Hwf as [paths Hwf].
    destruct (wellFormed_body _ _ _ Hwf) as (_ & _ & _ & Hhi).
    destruct Hwf as (_ & _ & _ & _ & Hlen & _). unfold targetChunkChars in Hlen. lia.
Qed.

Lemma route_always_has_context_witness :
  exists r,
    retrieved demoIndex "are the bins emptied?" = Returns (Some r)
    /\ systemPrefix demoIndex "are the bins emptied?" = Some (ctx_text r +:+ answerHint)
    /\ contextMeta demoIndex "are the bins emptied?" = segments r
    /\ 1 <= length (contextMeta demoIndex "are the bins emptied?") <= 8
    /\ (Z.of_nat (budgetCharged (contextMeta demoIndex "are the bins emptied?")) <= 6000)%Z.
Proof.
  apply (route_always_has_context demoHost demoIndex "are the bins emptied?").
  - by left.
  - by vm_compute.
  - intros ch Hch. vm_compute in Hch.
    apply elem_of_cons in Hch as [->|Hch]; [by vm_compute |].
    apply list_elem_of_singleton in Hch as ->. by vm_compute.
Defined.

(** ** Diagnostics *)

Section Diagnostics.

Lemma setAdd_spec (ps : list nat) (p q : nat) :
  NoDup ps -> NoDup (setAdd ps p) /\ (q ∈ setAdd ps p <-> q ∈ ps \/ q = p).
Proof.
  intros Hnd. unfold setAdd. destruct (decide (p ∈ ps)) as [Hin|Hnin].
  - split; [done |]. split; [by left | by intros [?| ->]].
  - split.
    + apply NoDup_app. split; [done |]. split; [| apply NoDup_singleton].
      by intros x Hx ->%list_elem_of_singleton.
    + rewrite elem_of_app, list_elem_of_singleton. done.
Qed.

Lemma notePage_keys (m : list (string * list nat)) (ch : IndexedChunk) :
  map fst (notePage m ch)
  = if decide (docName ch ∈ map fst m) then map fst m
    else map fst m ++ [docName ch].
Proof.
  unfold notePage. rewrite <- list_fmap_compose.
  assert (Hfst : forall m1 : list (string * list nat),
            map (fst ∘ (fun e => if decide (fst e = docName ch)
                                  then (fst e, setAdd (snd e) (page ch)) else e)) m1
            = map fst m1).
  { intros m1. apply map_ext. intros e. simpl. by destruct (decide _). }
  rewrite Hfst. destruct (decide _); [done |]. by rewrite map_app.
Qed.

Lemma notePage_entries (m : list (string * list nat)) (ch : IndexedChunk)
    (d : string) (ps' : list nat) :
  (d, ps') ∈ notePage m ch ->
  exists ps, ((d, ps) ∈ m \/ (d = docName ch /\ ps = [] /\ docName ch ∉ map fst m))
             /\ ps' = if decide (d = docName ch) then setAdd ps (page ch) else ps.
Proof.
  unfold notePage. intros ([d0 ps] & Heq & Hin)%list_elem_of_fmap. simpl in Heq.
  assert (Hd : d = d0) by (destruct (decide _); by injection Heq).
  subst d0. exists ps. split.
  - destruct (decide (docName ch ∈ map fst m)) as [Hk|Hk]; [by left |].
    apply elem_of_app in Hin as [?|Hin]; [by left |].
    apply list_elem_of_singleton in Hin. injection Hin as -> ->. by right.
  - destruct (decide (d = docName ch)); by injection Heq.
Qed.

Lemma notePage_noted (cs : list IndexedChunk) (m : list (string * list nat))
    (ch : IndexedChunk) :
  pagesNoted cs m -> pagesNoted (cs ++ [ch]) (notePage m ch).
Proof.
  intros (Hnd & Hkeys & Hents). split; [| split].
  - rewrite notePage_keys. destruct (decide _) as [|Hnew]; [done |].
    apply NoDup_app. split; [done |]. split; [| apply NoDup_singleton].
    by intros x Hx ->%list_elem_of_singleton.
  - intros d. rewrite notePage_keys. setoid_rewrite elem_of_app.
    setoid_rewrite list_elem_of_singleton.
    destruct (decide (docName ch ∈ map fst m)) as [Hold|Hnew].
    + rewrite Hkeys. split.
      * intros (c0 & ? & ?). exists c0. by split; [left |].
      * intros (c0 & [?| ->] & Hd); [by exists c0 |].
        subst d. by apply Hkeys.
    + rewrite elem_of_app, list_elem_of_singleton, Hkeys. split.
      * intros [(c0 & ? & ?)| ->]; [exists c0; by split; [left |] |].
        exists ch. by split; [right |].
      * intros (c0 & [?| ->] & Hd); [left; by exists c0 | by right].
  - intros d ps' Hin.
    apply notePage_entries in Hin as (ps & Hsrc & ->).
    assert (Hps : NoDup ps
              /\ forall p, p ∈ ps <-> exists c0, c0 ∈ cs /\ docName c0 = d /\ page c0 = p).
    { destruct Hsrc as [Hin|(-> & -> & Hnew)]; [by apply Hents |].
      split; [constructor |]. intros p. split; [by intros ?%elem_of_nil |].
      intros (c0 & Hc0 & Hd & _). exfalso. apply Hnew, Hkeys. by exists c0. }
    destruct Hps as [Hndps Hmem].
    destruct (decide (d = docName ch)) as [->|Hne].
    + split; [by apply (setAdd_spec ps (page ch) 0) |].
      intros p. rewrite (proj2 (setAdd_spec ps (page ch) p Hndps)), Hmem.
      setoid_rewrite elem_of_app. setoid_rewrite list_elem_of_singleton. split.
      * intros [(c0 & ? & ? & ?)| ->]; [exists c0; by split; [left |] |].
        exists ch. by split; [right |].
      * intros (c0 & [?| ->] & Hd & Hp); [left; by exists c0 | by right].
    + split; [done |]. intros p. rewrite Hmem.
      setoid_rewrite elem_of_app. setoid_rewrite list_elem_of_singleton. split.
      * intros (c0 & ? & ? & ?). exists c0. by split; [left |].
      * intros (c0 & [?| ->] & Hd & Hp); [by exists c0 | done].
Qed.

Lemma fileToPages_noted (cs : list IndexedChunk) : pagesNoted cs (fileToPages cs).
Proof.
  unfold fileToPages. induction cs as [|ch cs IH] using rev_ind.
  - split; [constructor |]. split.
    + intros d. simpl. rewrite elem_of_nil. split; [done |].
      by intros (c0 & ?%elem_of_nil & _).
    + by intros d ps ?%elem_of_nil.
  - rewrite fold_left_app. simpl. by apply notePage_noted.
Qed.

Lemma noted_distinctPages (cs : list IndexedChunk) (d : string) (ps : list nat) :
  NoDup ps ->
  (forall p, p ∈ ps <-> exists ch, ch ∈ cs /\ docName ch = d /\ page ch = p) ->
  length ps = distinctPages d cs.
Proof.
  intros Hnd Hmem. unfold distinctPages. apply Permutation_length.
  apply NoDup_Permutation; [done | apply NoDup_remove_dups |].
  intros p. rewrite Hmem, elem_of_remove_dups, list_elem_of_fmap.
  setoid_rewrite list_elem_of_filter. split.
  - intros (c0 & ? & ? & ?). by exists c0.
  - intros (c0 & ? & ? & ?). by exists c0.
Qed.

Lemma diag_files_spec (fallback : Host -> string) (h : Host) (idx : IndexState) :
  NoDup (map fd_docName (diag_files (getIndexDiagnostics fallback h idx)))
  /\ (forall d, d ∈ map fd_docName (diag_files (getIndexDiagnostics fallback h idx))
                <-> exists ch, ch ∈ chunks idx /\ docName ch = d)
  /\ (forall f, f ∈ diag_files (getIndexDiagnostics fallback h idx) ->
                fd_pages f = distinctPages (fd_docName f) (chunks idx)
                /\ 1 <= fd_pages f).
Proof.
  destruct (fileToPages_noted (chunks idx)) as (Hnd & Hkeys & Hents).
  simpl.
  assert (Hnames : map fd_docName
                     (map (fun e => {| fd_docName := fst e; fd_pages := length (snd e) |})
                          (fileToPages (chunks idx)))
                   = map fst (fileToPages (chunks idx))).
  { rewrite <- list_fmap_compose. by apply map_ext. }
  rewrite Hnames. split; [done |]. split; [done |].
  intros f ([d ps] & -> & Hin)%list_elem_of_fmap. simpl.
  destruct (Hents d ps Hin) as [Hndps Hmem].
  split; [by apply noted_distinctPages |].
  assert (Hd : d ∈ map fst (fileToPages (chunks idx))).
  { apply list_elem_of_fmap. by exists (d, ps). }
  apply Hkeys in Hd as (c0 & Hc0 & Hdn).
  assert (Hp : page c0 ∈ ps) by (apply Hmem; by exists c0).
  destruct ps; [by apply elem_of_nil in Hp | simpl; lia].
Qed.

End Diagnostics.

(** X12.  The diagnostics list every document name that occurs among the
    chunks exactly once, and no other; each file's page figure is the number
    of distinct page numbers among the chunks of that name, which is at
    least 1; and the total is the index's chunk count. *)
Theorem diagnostics_count_distinct_pages (fallback : Host -> string) (h : Host)
    (idx : IndexState) :
  let report := getIndexDiagnostics fallback h idx in
  diag_totalChunks report = totalChunks idx
  /\ NoDup (map fd_docName (diag_files report))
  /\ (forall d, d ∈ map fd_docName (diag_files report)
                <-> exists ch, ch ∈ chunks idx /\ docName ch = d)
  /\ (forall f, f ∈ diag_files report ->
                fd_pages f = distinctPages (fd_docName f) (chunks idx)
                /\ 1 <= fd_pages f).
Proof.
  intros report. split; [done |]. apply diag_files_spec.
Qed.

Lemma PdfJs_built_page_one (h : Host) (ch : IndexedChunk) :
  ch ∈ chunks (PdfJs.buildIndex h) -> page ch = 1.
Proof.
  simpl. rewrite collectChunks_indexedPaths.
  intros (abs & _ & Hin)%list_elem_of_In%in_flat_map.
  apply list_elem_of_In in Hin.
  destruct (pdfjs_textItems h abs) as [pages|] eqn:Hread.
  - rewrite (PdfJs_chunks h abs pages) in Hin by done.
    pose proof (sliceChunks_page abs (path_basename h abs) 1
                  (normalizeWhitespace (PdfJs.fullText pages))) as Hall.
    rewrite Forall_forall in Hall. by destruct (Hall ch Hin) as (-> & _).
  - unfold PdfJs.extractPdfChunks in Hin. rewrite Hread in Hin.
    by apply elem_of_nil in Hin.
Qed.

(** X13.  In the pdfjs revision the diagnostics report one page for every
    file, however many pages the document has. *)
Theorem pdfjs_diagnostics_one_page (h : Host) :
  Forall (fun f => fd_pages f = 1)
    (diag_files (getIndexDiagnostics PdfJs.fallback h (PdfJs.buildIndex h))).
Proof.
  apply Forall_forall. intros f Hf.
  destruct (diag_files_spec PdfJs.fallback h (PdfJs.buildIndex h)) as (_ & _ & Hpages).
  destruct (Hpages f Hf) as [Heq Hpos].
  assert (Hle : fd_pages f <= 1); [| lia].
  rewrite Heq. unfold distinctPages.
  set (ps := remove_dups _).
  assert (Hnd : NoDup ps) by apply NoDup_remove_dups.
  assert (Hone : forall p, p ∈ ps -> p = 1).
  { intros p. unfold ps. rewrite elem_of_remove_dups.
    intros (c0 & -> & Hc0)%list_elem_of_fmap.
    apply list_elem_of_filter in Hc0 as [_ Hc0].
    by apply PdfJs_built_page_one in Hc0. }
  clearbody ps. destruct ps as [|p [|q ps]]; simpl; [lia | lia |].
  exfalso. apply NoDup_cons in Hnd as [Hp _]. apply Hp.
  rewrite (Hone p), (Hone q).
  - apply list_elem_of_here.
  - apply list_elem_of_further, list_elem_of_here.
  - apply list_elem_of_here.
Qed.

Example demo_diagnostics :
  diag_files (getIndexDiagnostics PdfToText.fallback demoHost demoIndex)
  = [ {| fd_docName := "spec.pdf"; fd_pages := 2 |} ]
  /\ diag_files (getIndexDiagnostics PdfJs.fallback demoHost demoIndexJs)
     = [ {| fd_docName := "spec.pdf"; fd_pages := 1 |} ].
Proof. by vm_compute. Qed.

(** ** Corpus scan *)

Section Scan.

Lemma textChars_catTexts (cs : list IndexedChunk) :
  textChars cs = String.length (catTexts cs).
Proof.
  induction cs as [|ch cs IH]; [done |].
  change (textChars (ch :: cs)) with (String.length (text ch) + textChars cs).
  change (catTexts (ch :: cs)) with (text ch +:+ catTexts cs).
  by rewrite length_app_string, IH.
Qed.

Lemma scanPageCount_pageCount (h : Host) (overflows : string -> bool)
    (abs : string) :
  (forall out, exec_pdfinfo h abs = Some out -> overflows out = false) ->
  PdfToTextScan.scanPageCount h overflows abs = PdfToText.pageCount h abs.
Proof.
  intros Hfits.
  unfold PdfToTextScan.scanPageCount, PdfToTextScan.scanExec,
    PdfToText.pageCount, PdfToText.run.
  destruct (exec_pdfinfo h abs) as [out|]; [| done].
  by rewrite (Hfits out).
Qed.





End Scan.



(** X15.  In the pdfjs revision the scan reports, for a configured document
    that exists, either one entry for page 1 whose character count is the
    total number of characters of the document's chunks in the index, or,
    when the document cannot be read, one entry for page 0 with the error,
    in which case the index holds no chunk of it; a document that does not
    exist has no page entries. *)
Theorem pdfjs_scan_matches_index (h : Host) (errorText : string -> string)
    (maxPages : Z) (d : DocScan) :
  d ∈ PdfJsScan.scanConfiguredPdfs h errorText maxPages ->
  (ds_exists d = false /\ ds_pages d = None)
  \/ (ds_exists d = true
      /\ ((exists e, ds_pages d = Some [e] /\ ps_page e = 1 /\ ps_error e = None
                     /\ usedOcr e = false
                     /\ extractedChars e
                        = textChars (PdfJs.extractPdfChunks h (ds_path d)))
          \/ (exists e, ds_pages d = Some [e] /\ ps_page e = 0
                        /\ ps_error e = Some (errorText (ds_path d))
                        /\ extractedChars e = 0
                        /\ PdfJs.extractPdfChunks h (ds_path d) = []))).
Proof.
  unfold PdfJsScan.scanConfiguredPdfs.
  intros (q & -> & _)%list_elem_of_fmap.
  set (abs := if path_isAbsolute h q then q else path_resolve h q).
  destruct (fs_existsSync h abs); [| by left]. right.
  destruct (pdfjs_textItems h abs) as [pages|] eqn:Hread; simpl.
  - split; [done |]. left. eexists. split; [done |]. simpl.
    repeat (split; [done |]).
    rewrite (PdfJs_chunks h abs pages) by done.
    by rewrite textChars_catTexts, sliceChunks_catTexts.
  - split; [done |]. right. eexists. split; [done |]. simpl.
    repeat (split; [done |]).
    unfold PdfJs.extractPdfChunks. by rewrite Hread.
Qed.

Lemma pdfjs_scan_matches_index_witness :
  (ds_exists demoDocScanJs = false /\ ds_pages demoDocScanJs = None)
  \/ (ds_exists demoDocScanJs = true
      /\ ((exists e, ds_pages demoDocScanJs = Some [e] /\ ps_page e = 1
                     /\ ps_error e = None /\ usedOcr e = false
                     /\ extractedChars e
                        = textChars (PdfJs.extractPdfChunks demoHost
                                       (ds_path demoDocScanJs)))
          \/ (exists e, ds_pages demoDocScanJs = Some [e] /\ ps_page e = 0
                        /\ ps_error e = Some ((fun _ => "failed") (ds_path demoDocScanJs))
                        /\ extractedChars e = 0
                        /\ PdfJs.extractPdfChunks demoHost (ds_path demoDocScanJs) = []))).
Proof.
  apply (pdfjs_scan_matches_index demoHost (fun _ => "failed") 5 demoDocScanJs).
  vm_compute. apply list_elem_of_here.
Defined.

(** ** Cache histories *)

Section Lifecycle.

Variable buildIndex : Host -> IndexState.

Lemma runCache_snoc (ops : list CacheOp) (op : CacheOp) (g : option IndexState) :
  runCache buildIndex (ops ++ [op]) g
  = stepCache buildIndex (runCache buildIndex ops g) op.
Proof. unfold runCache. by rewrite fold_left_app. Qed.

Lemma runCache_built (ops : list CacheOp) :
  runCache buildIndex ops None = None
  \/ exists h, Ensure h ∈ ops /\ runCache buildIndex ops None = Some (buildIndex h).
Proof.
  induction ops as [|op ops IH] using rev_ind; [by left |].
  rewrite runCache_snoc. destruct op as [h|]; [| by left]. right.
  destruct IH as [->|(h' & Hin & ->)]; simpl.
  - exists h. split; [| done]. apply elem_of_app. right. apply list_elem_of_here.
  - exists h'. split; [| done]. apply elem_of_app. by left.
Qed.

End Lifecycle.

(** X16.  Whatever sequence of [ensureIndex] and [resetIndex] calls the
    process has made, the cache is empty or holds the index built on the
    host of one of the [ensureIndex] calls.  While it is filled,
    [ensureIndex] returns the cached index without looking at the current
    documents; after [resetIndex] it builds from the current ones.  In both
    revisions every index it returns is [mkIndex] of a chunk list, so its
    DF table and chunk count fit its chunks. *)
Theorem cache_holds_a_built_index (buildIndex : Host -> IndexState)
    (ops : list CacheOp) (h : Host) :
  let g := runCache buildIndex ops None in
  (g = None \/ exists h', Ensure h' ∈ ops /\ g = Some (buildIndex h'))
  /\ (forall index, g = Some index ->
        ensureIndex buildIndex h g = (index, Some index))
  /\ ensureIndex buildIndex h (resetIndex g) = (buildIndex h, Some (buildIndex h))
  /\ ((buildIndex = PdfToText.buildIndex \/ buildIndex = PdfJs.buildIndex) ->
      exists allChunks, fst (ensureIndex buildIndex h g) = mkIndex allChunks).
Proof.
  intros g. split; [apply runCache_built |].
  split; [by intros index -> |]. split; [done |].
  intros Hrev.
  destruct (runCache_built buildIndex ops) as [Hg|(h' & _ & Hg)];
    fold g in Hg; rewrite Hg; simpl.
  - destruct Hrev as [-> | ->]; by eexists.
  - destruct Hrev as [-> | ->]; by eexists.
Qed.

Lemma cache_holds_a_built_index_witness :
  exists allChunks,
    fst (ensureIndex PdfJs.buildIndex twiceHost
           (runCache PdfJs.buildIndex [Ensure demoHost; Reset; Ensure demoHost] None))
    = mkIndex allChunks.
Proof.
  apply (cache_holds_a_built_index PdfJs.buildIndex
           [Ensure demoHost; Reset; Ensure demoHost] twiceHost).
  by right.
Defined.

(** ** Configured locations *)

Section Configured.

Lemma splitComma_pieces (w cur : string) :
  allChars (fun c => negb (Ascii.eqb c ",")) cur = true ->
  Forall (fun piece => allChars (fun c => negb (Ascii.eqb c ",")) piece = true)
         (Js.splitComma cur w).
Proof.
  revert cur; induction w as [|c w IH]; intros cur Hcur; simpl.
  - by constructor.
  - destruct (Ascii.eqb c ",") eqn:Hc.
    + constructor; [done | by apply IH].
    + apply IH. rewrite allChars_app, Hcur. simpl. by rewrite Hc.
Qed.

Lemma allChars_dropWhile (p q : ascii -> bool) (s : string) :
  allChars p s = true -> allChars p (Js.dropWhile q s) = true.
Proof.
  induction s as [|c s IH]; simpl; [done |].
  intros [Hc Hs]%andb_prop. destruct (q c); [by apply IH |].
  simpl. by rewrite Hc, Hs.
Qed.

Lemma allChars_trimEnd (p : ascii -> bool) (s : string) :
  allChars p s = true -> allChars p (trimEnd s) = true.
Proof.
  induction s as [|c s IH]; [done |].
  cbn [allChars trimEnd]. intros [Hc Hs]%andb_prop. specialize (IH Hs).
  destruct (trimEnd s) as [|d r].
  - destruct (Js.isSpace c); [done |]. simpl. by rewrite Hc.
  - cbn [allChars] in *. by rewrite Hc, IH.
Qed.

Lemma dropWhile_starts (s : string) :
  Js.dropWhile Js.isSpace (Js.dropWhile Js.isSpace s) = Js.dropWhile Js.isSpace s.
Proof.
  induction s as [|c s IH]; simpl; [done |].
  destruct (Js.isSpace c) eqn:Hc; [done |]. simpl. by rewrite Hc.
Qed.

Lemma dropWhile_trimEnd (s : string) :
  Js.dropWhile Js.isSpace s = s ->
  Js.dropWhile Js.isSpace (trimEnd s) = trimEnd s.
Proof.
  destruct s as [|c s]; [done |]. cbn [Js.dropWhile].
  destruct (Js.isSpace c) eqn:Hc.
  - intros Heq. exfalso. apply (f_equal String.length) in Heq.
    pose proof (length_dropWhile Js.isSpace s). simpl in Heq. lia.
  - intros _. cbn [trimEnd].
    destruct (trimEnd s); rewrite ?Hc; cbn [Js.dropWhile]; by rewrite Hc.
Qed.

Lemma trim_trim (s : string) : Js.trim (Js.trim s) = Js.trim s.
Proof.
  rewrite !trim_spec.
  rewrite dropWhile_trimEnd by apply dropWhile_starts.
  apply trimEnd_fixed, lastIsSpace_trimEnd.
Qed.

Lemma envPaths_shape (h : Host) (q : string) :
  q ∈ envPaths h ->
  q <> EmptyString /\ Js.trim q = q
  /\ allChars (fun c => negb (Ascii.eqb c ",")) q = true.
Proof.
  unfold envPaths. destruct (env_DOC_PATHS h) as [v|]; [| by intros ?%elem_of_nil].
  intros Hin%list_elem_of_In. apply filter_In in Hin as [Hin Htruthy].
  apply in_map_iff in Hin as (piece & <- & Hpiece).
  split; [by destruct (Js.trim piece) |]. split; [apply trim_trim |].
  rewrite trim_spec. apply allChars_trimEnd, allChars_dropWhile.
  pose proof (splitComma_pieces v EmptyString eq_refl) as Hall.
  rewrite Forall_forall in Hall. by apply Hall, list_elem_of_In.
Qed.

End Configured.

(** X17.  Every location read from [DOC_PATHS] is non-empty, has no white
    space at either end and contains no comma; and the list of locations
    that is indexed, reported and scanned is never empty: when [DOC_PATHS]
    yields no entry it is the one default location. *)
Theorem configured_paths_shape (fallback : Host -> string) (h : Host)
    (idx : IndexState) :
  Forall (fun q => q <> EmptyString /\ Js.trim q = q
                   /\ allChars (fun c => negb (Ascii.eqb c ",")) q = true)
         (envPaths h)
  /\ 1 <= length (diag_configuredPaths (getIndexDiagnostics fallback h idx))
  /\ (envPaths h = [] ->
      map cp_path (diag_configuredPaths (getIndexDiagnostics fallback h idx))
      = [if path_isAbsolute h (fallback h) then fallback h
         else path_resolve h (fallback h)]).
Proof.
  split; [| split].
  - apply Forall_forall. intros q. apply envPaths_shape.
  - simpl. rewrite length_fmap.
    destruct (envPaths h); simpl; lia.
  - intros Hnone. simpl. by rewrite Hnone.
Qed.

Lemma configured_paths_shape_witness :
  map cp_path (diag_configuredPaths
                 (getIndexDiagnostics PdfJs.fallback blankHost demoIndexJs))
  = [if path_isAbsolute blankHost (PdfJs.fallback blankHost)
     then PdfJs.fallback blankHost
     else path_resolve blankHost (PdfJs.fallback blankHost)].
Proof.
  apply (configured_paths_shape PdfJs.fallback blankHost demoIndexJs).
  reflexivity.
Defined.

(** ** Reading the page count *)

Section PageCount.

Lemma parseInt_of_uint_acc (d : Decimal.uint) (acc : nat) :
  fold_left (fun acc c => 10 * acc + (Ascii.nat_of_ascii c - 48))
            (String.list_ascii_of_string (NilEmpty.string_of_uint d)) acc
  = Nat.of_uint_acc d acc.
Proof.
  revert acc; induction d; intros acc; simpl; [done | ..];
    rewrite IHd, Nat.tail_mul_spec; f_equal; lia.
Qed.

Lemma parseInt_ofNat (n : nat) : Js.parseInt (Js.ofNat n) = n.
Proof.
  unfold Js.parseInt, Js.ofNat. rewrite parseInt_of_uint_acc.
  apply DecimalNat.Unsigned.of_to.
Qed.

Lemma allChars_Forall (p : ascii -> bool) (s : string) :
  allChars p s = true
  <-> Forall (fun c => p c = true) (String.list_ascii_of_string s).
Proof.
  induction s as [|c s IH]; simpl; [split; by constructor |].
  rewrite andb_true_iff, IH. split.
  - intros [? ?]. by constructor.
  - intros [? ?]%Forall_cons. done.
Qed.

Lemma ofNat_digits (n : nat) :
  allChars Js.isDigit (Js.ofNat n) = true /\ Js.ofNat n <> EmptyString.
Proof.
  split; [apply allChars_Forall, digits_ofNat |].
  unfold Js.ofNat. destruct n; [done |].
  intros Hnil. apply (f_equal NilEmpty.uint_of_string) in Hnil.
  rewrite NilEmpty.usu in Hnil. simpl in Hnil. injection Hnil as Hnil.
  apply (f_equal Nat.of_uint) in Hnil.
  rewrite DecimalNat.Unsigned.of_to in Hnil. done.
Qed.

Lemma digit_not_space (c : ascii) : Js.isDigit c = true -> Js.isSpace c = false.
Proof. destruct c as [[] [] [] [] [] [] [] []]; by vm_compute. Qed.

Lemma takeWhile_app (p : ascii -> bool) (a b : string) :
  allChars p a = true -> Js.takeWhile p (a +:+ b) = a +:+ Js.takeWhile p b.
Proof.
  induction a as [|c a IH]; [done |].
  rewrite !string_app_cons. simpl. intros [-> Ha]%andb_prop. by rewrite IH.
Qed.

Lemma dropWhile_app (p : ascii -> bool) (a b : string) :
  allChars p a = true -> Js.dropWhile p (a +:+ b) = Js.dropWhile p b.
Proof.
  induction a as [|c a IH]; [done |].
  rewrite !string_app_cons. simpl. intros [-> Ha]%andb_prop. by apply IH.
Qed.

Lemma takeWhile_stops (p : ascii -> bool) (a b : string) :
  a <> EmptyString -> allChars (fun c => negb (p c)) a = true ->
  Js.takeWhile p (a +:+ b) = EmptyString /\ Js.dropWhile p (a +:+ b) = a +:+ b.
Proof.
  destruct a as [|c a]; [done |]. intros _. rewrite string_app_cons. simpl.
  intros [Hc _]%andb_prop. apply negb_true_iff in Hc. by rewrite Hc.
Qed.

Lemma allChars_impl (p q : ascii -> bool) (s : string) :
  (forall c, p c = true -> q c = true) ->
  allChars p s = true -> allChars q s = true.
Proof.
  intros Hpq. induction s as [|c s IH]; simpl; [done |].
  intros [Hc Hs]%andb_prop. by rewrite (Hpq c Hc), IH.
Qed.

Lemma prefix_app_same (pat rest : string) : String.prefix pat (pat +:+ rest) = true.
Proof.
  induction pat as [|c pat IH]; [by destruct rest |].
  rewrite string_app_cons. simpl. by destruct (ascii_dec c c).
Qed.

Lemma substring_after (a b : string) :
  String.substring (String.length a) (String.length (a +:+ b) - String.length a)
                   (a +:+ b) = b.
Proof.
  rewrite length_app_string.
  replace (String.length a + String.length b - String.length a)
    with (String.length b) by lia.
  induction a as [|c a IH]; [apply substring_all |].
  rewrite string_app_cons. simpl. apply IH.
Qed.

Lemma matchPagesHere_label (ws ds post : string) :
  ws <> EmptyString -> allChars Js.isSpace ws = true ->
  ds <> EmptyString -> allChars Js.isDigit ds = true ->
  Js.takeWhile Js.isDigit post = EmptyString ->
  PdfToText.matchPagesHere ("Pages:" +:+ ws +:+ ds +:+ post) = Some ds.
Proof.
  intros Hws Hsp Hds Hdig Hpost. unfold PdfToText.matchPagesHere.
  rewrite prefix_app_same.
  change 6 with (String.length "Pages:"). rewrite substring_after.
  assert (Hdsp : allChars (fun c => negb (Js.isSpace c)) ds = true).
  { apply (allChars_impl Js.isDigit); [| done].
    intros c Hc. by rewrite (digit_not_space c Hc). }
  destruct (takeWhile_stops Js.isSpace ds post Hds Hdsp) as [Htake Hdrop].
  rewrite takeWhile_app, dropWhile_app, Htake, Hdrop by done.
  rewrite string_app_nil_r.
  destruct ws as [|w ws']; [done |].
  rewrite takeWhile_app, Hpost, string_app_nil_r by done.
  by destruct ds.
Qed.

(** A match of the label cannot start inside what precedes it and run over
    into the label itself. *)
Lemma label_no_overlap (b rest : string) :
  String.prefix "Pages:" (b +:+ "Pages:" +:+ rest) = true ->
  b = EmptyString \/ String.prefix "Pages:" b = true.
Proof.
  destruct b as [|c1 [|c2 [|c3 [|c4 [|c5 [|c6 b]]]]]]; [by left | ..];
    intros Hpre; right; revert Hpre;
    rewrite ?string_app_cons; cbn [String.prefix];
    repeat (match goal with
            | |- context [ascii_dec ?x ?y] => destruct (ascii_dec x y); try subst
            end; try done).
  all: try (by destruct b).
Qed.

Lemma matchPages_skips (pre tail : string) :
  includes "Pages:" pre = false ->
  String.prefix "Pages:" tail = true ->
  PdfToText.matchPagesHere tail <> None ->
  PdfToText.matchPages (pre +:+ tail) = PdfToText.matchPagesHere tail.
Proof.
  intros Hpre Htail Hsome.
  assert (Hhere : forall t, PdfToText.matchPages t
            = match PdfToText.matchPagesHere t with
              | Some ds => Some ds
              | None => match t with
                        | EmptyString => None
                        | String _ t' => PdfToText.matchPages t'
                        end
              end) by (by intros [|]).
  induction pre as [|c pre IH].
  - change (EmptyString +:+ tail) with tail. rewrite Hhere.
    by destruct (PdfToText.matchPagesHere tail).
  - cbn [includes] in Hpre. apply orb_false_elim in Hpre as [Hc Hpre].
    rewrite Hhere.
    assert (Hnone : PdfToText.matchPagesHere (String c pre +:+ tail) = None).
    { unfold PdfToText.matchPagesHere.
      destruct (String.prefix "Pages:" (String c pre +:+ tail)) eqn:Hp; [| done].
      exfalso.
      assert (Htl : exists rest, tail = "Pages:" +:+ rest).
      { clear -Htail.
        destruct tail as [|t1 [|t2 [|t3 [|t4 [|t5 [|t6 rest]]]]]];
          cbn [String.prefix] in Htail; try done;
          repeat (match type of Htail with
                  | context [ascii_dec ?x ?y] => destruct (ascii_dec x y); try subst
                  end; try done).
        by exists rest. }
      destruct Htl as [rest ->].
      apply label_no_overlap in Hp as [?|Hp]; [done | congruence]. }
    rewrite Hnone, string_app_cons. by apply IH.
Qed.

End PageCount.

(** X18.  The page count is the decimal number that follows the first
    [Pages:] label of the pdfinfo output: when the output is some text
    without that label, then [Pages:], white space, the decimal digits of
    [n], and a rest that does not start with a digit, the chunker reads the
    page count [n], and so does the scan unless the output exceeds the
    default buffer of its call, in which case the scan reads 0; when pdfinfo
    fails, both read 0. *)
Theorem pageCount_reads_label (h : Host) (overflows : string -> bool)
    (absPath pre ws post : string) (n : nat) :
  (exec_pdfinfo h absPath
   = Some (pre +:+ "Pages:" +:+ ws +:+ Js.ofNat n +:+ post) ->
   includes "Pages:" pre = false ->
   ws <> EmptyString -> allChars Js.isSpace ws = true ->
   Js.takeWhile Js.isDigit post = EmptyString ->
   PdfToText.pageCount h absPath = n
   /\ PdfToTextScan.scanPageCount h overflows absPath
      = if overflows (pre +:+ "Pages:" +:+ ws +:+ Js.ofNat n +:+ post)
        then 0 else n)
  /\ (exec_pdfinfo h absPath = None ->
      PdfToText.pageCount h absPath = 0
      /\ PdfToTextScan.scanPageCount h overflows absPath = 0).
Proof.
  split.
  - intros Hout Hpre Hws Hsp Hpost.
    destruct (ofNat_digits n) as [Hdig Hne].
    assert (Hm : PdfToText.matchPages (pre +:+ "Pages:" +:+ ws +:+ Js.ofNat n +:+ post)
                 = Some (Js.ofNat n)).
    { rewrite matchPages_skips; [by apply matchPagesHere_label | done | |].
      - apply prefix_app_same.
      - by rewrite matchPagesHere_label. }
    unfold PdfToText.pageCount, PdfToTextScan.scanPageCount,
      PdfToTextScan.scanExec, PdfToText.run.
    rewrite Hout. simpl. rewrite Hm, parseInt_ofNat.
    split; [done |]. destruct (overflows _); [done |].
    by rewrite Hm, parseInt_ofNat.
  - intros Hfail.
    unfold PdfToText.pageCount, PdfToTextScan.scanPageCount,
      PdfToTextScan.scanExec, PdfToText.run.
    by rewrite Hfail.
Qed.

Lemma pageCount_reads_label_witness :
  PdfToText.pageCount demoHost "/docs/spec.pdf" = 2
  /\ PdfToTextScan.scanPageCount demoHost (fun _ => false) "/docs/spec.pdf" = 2.
Proof.
  apply (proj1 (pageCount_reads_label demoHost (fun _ => false) "/docs/spec.pdf"
                  "Title: spec
" "          " "
Encrypted: no" 2)); by vm_compute.
Defined.

(** ** The natural order of an index *)

Section NaturalOrder.






End NaturalOrder.


(** ** Term frequency and rank *)

Section Monotone.

Lemma sumR_le (A : Type) (f g : A -> R) (l : list A) :
  (forall x, x ∈ l -> (f x <= g x)%R) ->
  (sumR (map f l) <= sumR (map g l))%R.
Proof.
  induction l as [|x l IH]; intros Hle; simpl; [lra |].
  pose proof (Hle x (list_elem_of_here _ _)).
  assert (sumR (map f l) <= sumR (map g l))%R
    by (apply IH; intros; apply Hle; by apply list_elem_of_further).
  lra.
Qed.

End Monotone.

(** X20.  With a document-frequency table whose entries lie between 1 and
    [N >= 1], a chunk in which every query token occurs at least as often
    as in another chunk scores at least as high as the other. *)
Theorem score_monotone_in_term_frequency (queryTokens : list string)
    (a b : IndexedChunk) (df : gmap string nat) (N : nat) :
  1 <= N ->
  (forall t d, df !! t = Some d -> 1 <= d <= N) ->
  (forall qt, qt ∈ queryTokens ->
     occurrences qt (tokenize (text a)) <= occurrences qt (tokenize (text b))) ->
  (scoreChunk queryTokens a df N <= scoreChunk queryTokens b df N)%R.
Proof.
  intros HN Hdf Hocc. rewrite !scoreChunk_sum. apply sumR_le.
  intros qt Hqt. rewrite !contribution_formula.
  apply Rmult_le_compat_r.
  - by apply ln_ge_0, ratio_ge_1, docFreq_bound.
  - apply le_INR. by apply Hocc.
Qed.

Lemma score_monotone_in_term_frequency_witness :
  (scoreChunk ["bins"] demoChunk1 demoDf 2 <= scoreChunk ["bins"] demoChunk2 demoDf 2)%R.
Proof.
  apply (score_monotone_in_term_frequency ["bins"] demoChunk1 demoChunk2 demoDf 2).
  - lia.
  - intros t d Hd. unfold demoDf in Hd.
    apply lookup_singleton_Some in Hd as [_ <-]. lia.
  - intros qt ->%list_elem_of_singleton. vm_compute. lia.
Defined.

(** ** Raising [topK] *)

Section TopK.

#[local] Opaque block.

Lemma sliceTo_prefix {A} (l : list A) (k k' : Z) :
  (0 <= k <= k')%Z -> Js.sliceTo l k `prefix_of` Js.sliceTo l k'.
Proof.
  intros [H0 Hk]. unfold Js.sliceTo.
  destruct (Z.ltb_spec k 0) as [? | _]; [lia |].
  destruct (Z.ltb_spec k' 0) as [? | _]; [lia |].
  set (n := Z.to_nat (Z.min k (Z.of_nat (length l)))).
  set (n' := Z.to_nat (Z.min k' (Z.of_nat (length l)))).
  assert (Hn : n <= n') by lia.
  replace (take n l) with (take n (take n' l)).
  - exists (drop n (take n' l)). by rewrite take_drop.
  - rewrite take_take. f_equal. lia.
Qed.

Lemma pickChunks_prefix (index : IndexState) (query : string) (K K' : Z) :
  (0 <= K <= K')%Z ->
  pickChunks index query K `prefix_of` pickChunks index query K'.
Proof.
  intros HK. unfold pickChunks.
  destruct (decide (K = 0%Z)) as [-> | HK0].
  { rewrite !sliceTo_zero. simpl. apply prefix_nil. }
  rewrite !(sliceTo_pos _ K), !(sliceTo_pos _ K') by lia.
  destruct (filter (fun x => (0 < s x)%R) (scoredAll index (tokenize query)))
    as [|x pos].
  - rewrite !take_nil. simpl.
    rewrite <- !(sliceTo_pos _ K), <- !(sliceTo_pos _ K') by lia.
    by apply sliceTo_prefix.
  - assert (HS : forall k, (0 < k)%Z ->
                   take (Z.to_nat k) (x :: pos) = x :: take (Z.to_nat k - 1) pos).
    { intros k Hk. destruct (Z.to_nat k) as [|m] eqn:E; [lia |].
      simpl. by rewrite Nat.sub_0_r. }
    rewrite !(HS K), !(HS K') by lia. simpl.
    rewrite <- !(HS K), <- !(HS K') by lia.
    rewrite <- !(sliceTo_pos _ K), <- !(sliceTo_pos _ K') by lia.
    by apply sliceTo_prefix.
Qed.

Lemma included_longer (picked more : list IndexedChunk) (B : Z) (used : nat) :
  included picked B used `prefix_of` included (picked ++ more) B used.
Proof.
  revert used. induction picked as [|ch rest IH]; intros used; simpl.
  - apply prefix_nil.
  - destruct (_ >? _)%Z; [apply prefix_nil |].
    apply prefix_cons, IH.
Qed.

End TopK.

(** X21.  Raising [topK] never loses context: for [0 <= topK <= topK'],
    when a call with [topK] returns a result, the same call with [topK']
    returns a result whose segments start with the segments of the first. *)
Theorem larger_topK_extends (index : IndexState) (query : string)
    (charBudget topK topK' : Z) (r : RetrievedContext) :
  (0 <= topK <= topK')%Z ->
  getRelevantContext index query charBudget topK = Returns (Some r) ->
  exists r', getRelevantContext index query charBudget topK' = Returns (Some r')
             /\ segments r `prefix_of` segments r'.
Proof.
  intros HK Hres.
  destruct (retrieve_some _ _ _ _ _ Hres) as (Hne & Hsegs & _).
  destruct (pickChunks_prefix index query topK topK' HK) as [more Hmore].
  pose proof (included_longer (map c (pickChunks index query topK)) (map c more)
                charBudget 0) as [rest Hrest].
  rewrite <- map_app, <- Hmore in Hrest.
  unfold getRelevantContext in *.
  destruct (totalChunks index =? 0); [done |].
  rewrite Hrest.
  destruct (included (map c (pickChunks index query topK)) charBudget 0)
    as [|ch inc] eqn:Hinc; [done |].
  simpl. eexists. split; [done |]. simpl.
  rewrite Hsegs. simpl. rewrite map_app. by eexists.
Qed.

Lemma larger_topK_extends_witness :
  exists r', getRelevantContext demoIndexJs EmptyString 60 8 = Returns (Some r')
             /\ segments demoResult `prefix_of` segments r'.
Proof.
  apply (larger_topK_extends demoIndexJs EmptyString 60 1 8 demoResult).
  - lia.
  - rewrite retrieve_empty_query. vm_compute. reflexivity.
Defined.

(** ** The three views of the configured locations *)

Lemma configured_exists (fallback : Host -> string) (h : Host) (idx : IndexState)
    (abs : string) :
  abs ∈ indexedPaths fallback h ->
  {| cp_path := abs; cp_exists := true |}
    ∈ diag_configuredPaths (getIndexDiagnostics fallback h idx).
Proof.
  unfold indexedPaths. simpl.
  intros [Hex (q & -> & Hq)%list_elem_of_fmap]%list_elem_of_filter.
  apply list_elem_of_fmap. exists q. split; [| done].
  simpl. by rewrite Hex.
Qed.

(** X22.  The scan, the diagnostics and the index agree on the configured
    locations: the scan and the diagnostics list the same absolute locations
    with the same existence flags, in the same order; the scan has page
    entries exactly for the locations that exist; and every chunk of the
    built index lies at a location the diagnostics report as existing.
    This holds in both revisions. *)
Theorem scan_diagnostics_index_agree (h : Host) (overflows : string -> bool)
    (errorText : string -> nat -> string) (errorTextJs : string -> string)
    (maxPages : Z) (idx : IndexState) :
  (map (fun d => (ds_path d, ds_exists d))
       (PdfToTextScan.scanConfiguredPdfs h overflows errorText maxPages)
   = map (fun p => (cp_path p, cp_exists p))
         (diag_configuredPaths (getIndexDiagnostics PdfToText.fallback h idx))
   /\ Forall (fun d => ds_exists d = false <-> ds_pages d = None)
             (PdfToTextScan.scanConfiguredPdfs h overflows errorText maxPages)
   /\ Forall (fun ch => {| cp_path := docPath ch; cp_exists := true |}
                          ∈ diag_configuredPaths
                              (getIndexDiagnostics PdfToText.fallback h idx))
             (chunks (PdfToText.buildIndex h)))
  /\ (map (fun d => (ds_path d, ds_exists d))
          (PdfJsScan.scanConfiguredPdfs h errorTextJs maxPages)
      = map (fun p => (cp_path p, cp_exists p))
            (diag_configuredPaths (getIndexDiagnostics PdfJs.fallback h idx))
      /\ Forall (fun d => ds_exists d = false <-> ds_pages d = None)
                (PdfJsScan.scanConfiguredPdfs h errorTextJs maxPages)
      /\ Forall (fun ch => {| cp_path := docPath ch; cp_exists := true |}
                             ∈ diag_configuredPaths
                                 (getIndexDiagnostics PdfJs.fallback h idx))
                (chunks (PdfJs.buildIndex h))).
Proof.
  split; (split; [| split]).
  - unfold PdfToTextScan.scanConfiguredPdfs. simpl.
    rewrite <- !list_fmap_compose. apply map_ext. intros q. simpl.
    by destruct (fs_existsSync h _).
  - unfold PdfToTextScan.scanConfiguredPdfs.
    apply Forall_fmap, Forall_forall. intros q _. simpl.
    by destruct (fs_existsSync h _).
  - apply Forall_forall. intros ch Hch.
    apply configured_exists.
    by destruct (PdfToText_built_wellFormed h ch Hch) as (? & _).
  - unfold PdfJsScan.scanConfiguredPdfs. simpl.
    rewrite <- !list_fmap_compose. apply map_ext. intros q. simpl.
    destruct (fs_existsSync h _); [| done].
    by destruct (pdfjs_textItems h _).
  - unfold PdfJsScan.scanConfiguredPdfs.
    apply Forall_fmap, Forall_forall. intros q _. simpl.
    destruct (fs_existsSync h _); [| done].
    by destruct (pdfjs_textItems h _).
  - apply Forall_forall. intros ch Hch.
    apply configured_exists.
    by destruct (PdfJs_built_wellFormed h ch Hch) as (? & _).
Qed.

(** A witness of X12 on the demo document. *)
Lemma diagnostics_count_distinct_pages_witness :
  fd_pages {| fd_docName := "spec.pdf"; fd_pages := 2 |}
  = distinctPages "spec.pdf" (chunks demoIndex)
  /\ 1 <= 2.
Proof.
  apply (diagnostics_count_distinct_pages PdfToText.fallback demoHost demoIndex).
  vm_compute. apply list_elem_of_here.
Defined.


(** ** One request, one index *)



